(** * Mobbin Vault content script: scroll-and-collect loop and store upsert

    A shallow embedding of [src/content.js] (the "v3 FIXED" revision, the
    second script in that file): the harvest of screen URLs, the scrolling
    loop with its convergence and retry bookkeeping, the upsert into
    [chrome.storage.local], and the message listener's two module-level
    flags.

    Conventions.
    - A JavaScript string is a [string]: a sequence of code units, here
      restricted to the Latin-1 range that [ascii] covers.
    - Pixel measurements and timestamps are [Z]; counters and lengths are
      [nat].
    - What the browser decides (the DOM, the URL parser, the clock, storage
      failures, the moment an abort message arrives) is an input of the
      model: a [Host] for the URL parser, one [IterObs] per loop iteration,
      and a [Faults] record for storage. *)

From stdpp Require Import gmap strings list.
From Stdlib Require Import ZArith Ascii DecimalString.

Set Warnings "-clear-no-such-hyp".

Local Open Scope string_scope.
Local Open Scope Z_scope.
Local Open Scope list_scope.

(** ** JavaScript string primitives used by the script *)

Module JS.

(** [s.includes(needle)] *)
Fixpoint includes (needle s : string) : bool :=
  String.prefix needle s ||
  match s with
  | EmptyString => false
  | String _ s' => includes needle s'
  end.

(** [s.split(c)[0]]: the text before the first occurrence of [c]. *)
Fixpoint split_head (c : ascii) (s : string) : string :=
  match s with
  | EmptyString => EmptyString
  | String a s' => if Ascii.eqb a c then EmptyString else String a (split_head c s')
  end.

(** [s.split(c)]: never empty; the piece under construction is [cur]. *)
Fixpoint split_acc (c : ascii) (cur : string) (s : string) : list string :=
  match s with
  | EmptyString => [cur]
  | String a s' =>
      if Ascii.eqb a c then cur :: split_acc c EmptyString s'
      else split_acc c (cur +:+ String a EmptyString) s'
  end.

Definition split (c : ascii) (s : string) : list string := split_acc c EmptyString s.

(** [parts[parts.length - 1]] of a non-empty array; [undefined] is only
    possible on an empty array, and then [undefined || x] is [x], which the
    empty string models as well. *)
Definition last_part (parts : list string) : string := List.last parts EmptyString.

(** The Latin-1 members of the regular expression class [\s]. *)
Definition is_space (a : ascii) : bool :=
  let n := Ascii.nat_of_ascii a in
  ((9 <=? n)%nat && (n <=? 13)%nat) || (n =? 32)%nat || (n =? 160)%nat.

(** [s.replace(/\s+/g, '-')]: every maximal run of white space becomes one
    hyphen.  [in_run] tells whether the previous code unit was white space. *)
Fixpoint replace_spaces (in_run : bool) (s : string) : string :=
  match s with
  | EmptyString => EmptyString
  | String a s' =>
      if is_space a then
        if in_run then replace_spaces true s'
        else String "-"%char (replace_spaces true s')
      else String a (replace_spaces false s')
  end.

(** [toLowerCase] on one Latin-1 code unit: A-Z, and the accented capitals
    U+00C0..U+00DE except the multiplication sign U+00D7. *)
Definition lower_ascii (a : ascii) : ascii :=
  let n := Ascii.nat_of_ascii a in
  if ((65 <=? n)%nat && (n <=? 90)%nat)
     || ((192 <=? n)%nat && (n <=? 222)%nat && negb (n =? 215)%nat)
  then Ascii.ascii_of_nat (n + 32) else a.

Fixpoint toLowerCase (s : string) : string :=
  match s with
  | EmptyString => EmptyString
  | String a s' => String (lower_ascii a) (toLowerCase s')
  end.

(** Template-literal rendering of a non-negative integer. *)
Definition of_nat (n : nat) : string := NilEmpty.string_of_uint (Nat.to_uint n).

(** [x || y] on strings: the empty string is falsy. *)
Definition or_else (x y : string) : string := if decide (x = "") then y else x.

End JS.

(** ** The browser's URL parser *)

(** [new URL(url)] either throws ([None]) or yields a record whose
    [protocol] is the scheme followed by a colon. *)
Class Host := { URL_protocol : string -> option string }.

(** A reference parser for the closed examples: the scheme states of the
    WHATWG URL parser on an input without surrounding white space, and for
    the schemes that need a host (http, https, ws, wss, ftp) a host made of
    letters, digits, hyphens and dots.  URLs with credentials, ports, IP
    literals or percent-escapes in the host lie outside what it decides and
    are reported as failures.  The theorems below hold for every [Host]. *)
Module Whatwg.

Definition is_alpha (a : ascii) : bool :=
  let n := Ascii.nat_of_ascii (JS.lower_ascii a) in (97 <=? n)%nat && (n <=? 122)%nat.

Definition is_digit (a : ascii) : bool :=
  let n := Ascii.nat_of_ascii a in (48 <=? n)%nat && (n <=? 57)%nat.

Definition is_scheme_char (a : ascii) : bool :=
  (is_alpha a && (Ascii.nat_of_ascii a <? 128)%nat) || is_digit a
  || Ascii.eqb a "+"%char || Ascii.eqb a "-"%char || Ascii.eqb a "."%char.

(** Scheme state: returns the lower-cased scheme and what follows the colon. *)
Fixpoint scheme_state (acc : string) (s : string) : option (string * string) :=
  match s with
  | EmptyString => None
  | String a s' =>
      if Ascii.eqb a ":"%char then Some (acc, s')
      else if is_scheme_char a
           then scheme_state (acc +:+ String (JS.lower_ascii a) EmptyString) s'
           else None
  end.

Definition scheme_start (s : string) : option (string * string) :=
  match s with
  | String a _ =>
      if is_alpha a && (Ascii.nat_of_ascii a <? 128)%nat then scheme_state EmptyString s else None
  | EmptyString => None
  end.

Fixpoint skip_slashes (s : string) : string :=
  match s with
  | String a s' => if Ascii.eqb a "/"%char || Ascii.eqb a "\"%char then skip_slashes s' else s
  | EmptyString => EmptyString
  end.

Fixpoint host_of (s : string) : string :=
  match s with
  | EmptyString => EmptyString
  | String a s' =>
      if Ascii.eqb a "/"%char || Ascii.eqb a "\"%char || Ascii.eqb a "?"%char || Ascii.eqb a "#"%char
      then EmptyString else String a (host_of s')
  end.

Fixpoint plain_host (s : string) : bool :=
  match s with
  | EmptyString => true
  | String a s' =>
      ((is_alpha a && (Ascii.nat_of_ascii a <? 128)%nat) || is_digit a
       || Ascii.eqb a "-"%char || Ascii.eqb a "."%char) && plain_host s'
  end.

Definition needs_host (scheme : string) : bool :=
  bool_decide (scheme ∈ ["http"; "https"; "ws"; "wss"; "ftp"]).

Definition protocol (url : string) : option string :=
  match scheme_start url with
  | None => None
  | Some (scheme, rest) =>
      if needs_host scheme then
        let h := host_of (skip_slashes rest) in
        if bool_decide (h ≠ "") && plain_host h then Some (scheme +:+ ":") else None
      else Some (scheme +:+ ":")
  end.

Definition host : Host := {| URL_protocol := protocol |}.

End Whatwg.

(** ** Harvesting screen URLs *)

(** An image element matched by [CONFIG.SELECTORS.screens]: its resolved
    [src] and whether [img.closest('li')] finds an ancestor. *)
Record Img := { src : string; closest_li : bool }.

(** [extractImagesFromDOM], on the node list [querySelectorAll] returned. *)
Definition extractImagesFromDOM (rawImages : list Img) : list string :=
  foldl (fun urls img =>
           if closest_li img then urls
           else if bool_decide (src img ≠ "") && JS.includes "http" (src img)
                then urls ++ [JS.split_head "?"%char (src img)]
                else urls)
        [] rawImages.

Section Validation.
Context {host : Host}.

(** [isValidImageUrl] *)
Definition isValidImageUrl (url : string) : bool :=
  if decide (url = "") then false
  else match URL_protocol url with
       | Some p => bool_decide (p = "http:") || bool_decide (p = "https:")
       | None => false
       end.

End Validation.

(** ** Configuration constants *)

Module CONFIG.
Definition SCROLL_DELAY : Z := 500.
Definition INITIAL_DELAY : Z := 500.
Definition SCROLL_THRESHOLD : Z := 100.
Definition MAX_NO_CONTENT_ATTEMPTS : nat := 2.
Definition MAX_RETRY_ATTEMPTS : nat := 3.
End CONFIG.

(** ** The scrolling loop of [performSmartScrape] *)

(** What one scan does to the page and the popup, in program order. *)
Inductive Effect :=
| ScrollTo (x y : Z)
| ScrollBy (top : Z)
| Sleep (ms : Z)
| Progress (text : string).

(** The [let] variables of [performSmartScrape] that the loop updates. *)
Record Locals := {
  capturedImages : list string;
  scannedUrlSet : gset string;
  retryCount : nat;
  totalHeight : Z;
  noNewContentCount : nat;
  scrollPosition : Z
}.

Definition set_retryCount (n : nat) (st : Locals) : Locals :=
  {| capturedImages := capturedImages st; scannedUrlSet := scannedUrlSet st;
     retryCount := n; totalHeight := totalHeight st;
     noNewContentCount := noNewContentCount st; scrollPosition := scrollPosition st |}.

Definition set_totalHeight (h : Z) (st : Locals) : Locals :=
  {| capturedImages := capturedImages st; scannedUrlSet := scannedUrlSet st;
     retryCount := retryCount st; totalHeight := h;
     noNewContentCount := noNewContentCount st; scrollPosition := scrollPosition st |}.

Definition set_noNewContentCount (n : nat) (st : Locals) : Locals :=
  {| capturedImages := capturedImages st; scannedUrlSet := scannedUrlSet st;
     retryCount := retryCount st; totalHeight := totalHeight st;
     noNewContentCount := n; scrollPosition := scrollPosition st |}.

Definition set_scrollPosition (p : Z) (st : Locals) : Locals :=
  {| capturedImages := capturedImages st; scannedUrlSet := scannedUrlSet st;
     retryCount := retryCount st; totalHeight := totalHeight st;
     noNewContentCount := noNewContentCount st; scrollPosition := p |}.

(** What the page shows during one pass through the loop body.
    [abort_flag] is [scrapingAborted] at the moment the [while] condition is
    evaluated; the body runs without suspension up to its [await sleep], so
    the three reads of [document.body.scrollHeight] see one value.
    [harvest] is the outcome of the call to [extractImagesFromDOM]: the
    message of the exception it threw, or the node list it walked.  An
    exception inside the [try] block is placed at that call, before the
    pass has updated anything. *)
Record IterObs := {
  abort_flag : bool;
  harvest : string + list Img;
  innerHeight : Z;
  scrollY : Z;
  scrollHeight : Z
}.

(** How one pass through the loop body ends. *)
Inductive Step :=
| Continue (st : Locals)
| Break (st : Locals)
| Throw (message : string).

Section Loop.
Context {host : Host}.

(** The callback of [newImages.forEach]. *)
Definition collect (st : Locals) (url : string) : Locals :=
  if negb (bool_decide (url ∈ scannedUrlSet st)) && isValidImageUrl url then
    {| capturedImages := capturedImages st ++ [url];
       scannedUrlSet := {[url]} ∪ scannedUrlSet st;
       retryCount := retryCount st; totalHeight := totalHeight st;
       noNewContentCount := noNewContentCount st; scrollPosition := scrollPosition st |}
  else st.

(** "Scroll down": the tail of the [try] block. *)
Definition scrollDown (viewportHeight : Z) (progress : Effect) (st : Locals) : Step * list Effect :=
  (Continue (set_scrollPosition (scrollPosition st + viewportHeight) st),
   [progress; ScrollBy viewportHeight; Sleep CONFIG.SCROLL_DELAY]).

(** One pass through the body of [while (!scrapingAborted)]: the [try]
    block, or the [catch] block when the harvest throws. *)
Definition iteration (viewportHeight : Z) (o : IterObs) (st : Locals) : Step * list Effect :=
  match harvest o with
  | inl message =>
      let retry := S (retryCount st) in
      if (CONFIG.MAX_RETRY_ATTEMPTS <=? retry)%nat then
        (Throw ("Scraping failed after " +:+ JS.of_nat retry +:+ " retries: " +:+ message), [])
      else
        (Continue (set_retryCount retry st), [Sleep (CONFIG.SCROLL_DELAY * 2)])
  | inr rawImages =>
      let newImages := extractImagesFromDOM rawImages in
      let st1 := foldl collect st newImages in
      let progress :=
        Progress ("Scanning... Found " +:+ JS.of_nat (length (capturedImages st1)) +:+ " screens") in
      let atBottom := scrollHeight o - CONFIG.SCROLL_THRESHOLD <=? innerHeight o + scrollY o in
      if atBottom then
        if scrollHeight o =? totalHeight st1 then
          let st2 := set_noNewContentCount (S (noNewContentCount st1)) st1 in
          if (CONFIG.MAX_NO_CONTENT_ATTEMPTS <=? noNewContentCount st2)%nat
          then (Break st2, [progress])
          else scrollDown viewportHeight progress st2
        else
          scrollDown viewportHeight progress
            (set_noNewContentCount 0 (set_totalHeight (scrollHeight o) st1))
      else scrollDown viewportHeight progress st1
  end.

(** How the [while] loop is left. *)
Inductive LoopExit :=
| Cancelled (st : Locals)     (* the condition found [scrapingAborted] set *)
| Converged (st : Locals)     (* [break] *)
| Failed (message : string)   (* the [catch] block rethrew *)
| Running (st : Locals).      (* the observations ran out: still looping *)

Record Run := {
  exit : LoopExit;
  effects : list Effect;
  rounds : nat                (* passes through the loop body *)
}.

Definition after_step (eff : list Effect) (r : Run) : Run :=
  {| exit := exit r; effects := eff ++ effects r; rounds := S (rounds r) |}.

(** The loop, driven by one observation per evaluation of its condition. *)
Fixpoint scrollLoop (viewportHeight : Z) (obs : list IterObs) (st : Locals) : Run :=
  match obs with
  | [] => {| exit := Running st; effects := []; rounds := 0 |}
  | o :: obs' =>
      if abort_flag o then {| exit := Cancelled st; effects := []; rounds := 0 |}
      else
        match iteration viewportHeight o st with
        | (Continue st', eff) => after_step eff (scrollLoop viewportHeight obs' st')
        | (Break st', eff) => {| exit := Converged st'; effects := eff; rounds := 1 |}
        | (Throw message, eff) => {| exit := Failed message; effects := eff; rounds := 1 |}
        end
  end.

End Loop.

(** ** The store and [saveToStorage] *)

(** What [getPageMeta] returns. *)
Record Meta := { meta_name : string; meta_logo : string; meta_url : string }.

(** One element of the array kept under the storage key ["apps"]. *)
Record App := {
  id : string;
  name : string;
  logo : string;
  sourceUrl : string;
  screenCount : nat;
  screens : list string;
  dateAdded : Z;
  dateUpdated : Z
}.

(** The key ["apps"] of [chrome.storage.local]: absent, or an array. *)
Definition Store := option (list App).

(** Rejections of the two storage calls, when the browser produces them. *)
Record Faults := { get_error : option string; set_error : option string }.

Definition no_faults : Faults := {| get_error := None; set_error := None |}.

(** The terminal results of a scan. *)
Inductive ScrapeResult :=
| Success (count : nat) (appName : string) (isUpdate : bool)
| Aborted (message : string)
| Error (message : string).

(** [Array.prototype.findIndex]: the first index whose element satisfies
    [p], or -1. *)
Fixpoint findIndex_from {A} (p : A -> bool) (i : Z) (l : list A) : Z :=
  match l with
  | [] => -1
  | x :: l' => if p x then i else findIndex_from p (i + 1) l'
  end.

Definition findIndex {A} (p : A -> bool) (l : list A) : Z := findIndex_from p 0 l.

(** [urlParts[urlParts.length - 1] || meta.name.replace(/\s+/g, '-').toLowerCase()] *)
Definition slugify (s : string) : string := JS.toLowerCase (JS.replace_spaces false s).

Definition appId_of (href : string) (meta : Meta) : string :=
  JS.or_else (JS.last_part (JS.split "/"%char href)) (slugify (meta_name meta)).

(** The predicate handed to [apps.findIndex]. *)
Definition is_duplicate (meta : Meta) (appId : string) (a : App) : bool :=
  bool_decide (name a = meta_name meta) || bool_decide (id a = appId).

(** The record literal [newAppData]; both [Date.now()] reads happen while the
    literal is built and are the one instant [now]. *)
Definition newAppData (appId : string) (now : Z) (orderedImages : list string) (meta : Meta) : App :=
  {| id := appId; name := meta_name meta; logo := meta_logo meta; sourceUrl := meta_url meta;
     screenCount := length orderedImages; screens := orderedImages;
     dateAdded := now; dateUpdated := now |}.

Definition set_dateAdded (d : Z) (a : App) : App :=
  {| id := id a; name := name a; logo := logo a; sourceUrl := sourceUrl a;
     screenCount := screenCount a; screens := screens a;
     dateAdded := d; dateUpdated := dateUpdated a |}.

(** The [catch] block of [saveToStorage]: the error it rethrows. *)
Definition storage_error (message : string) : string :=
  if bool_decide (message ≠ "") && JS.includes "QUOTA_BYTES" message
  then "Storage quota exceeded. Try clearing some apps first."
  else "Failed to save: " +:+ message.

(** The array after "Check for duplicates": [None] stands for the
    [TypeError] of reading [dateAdded] off a missing element. *)
Definition upsert (appId : string) (now : Z) (orderedImages : list string) (meta : Meta)
    (apps : list App) : option (list App * bool) :=
  let fresh := newAppData appId now orderedImages meta in
  let existingIndex := findIndex (is_duplicate meta appId) apps in
  if -1 <? existingIndex then
    match apps !! Z.to_nat existingIndex with
    | Some old => Some (<[Z.to_nat existingIndex := set_dateAdded (dateAdded old) fresh]> apps, true)
    | None => None
    end
  else Some (fresh :: apps, false).

(** [saveToStorage]: the value it resolves to ([inr]) or the message of the
    error it throws ([inl]), and the store afterwards. *)
Definition saveToStorage (f : Faults) (href : string) (now : Z)
    (orderedImages : list string) (meta : Meta) (store : Store)
    : (string + ScrapeResult) * Store :=
  let appId := appId_of href meta in
  match get_error f with
  | Some e => (inl (storage_error e), store)
  | None =>
      let apps := default [] store in
      match upsert appId now orderedImages meta apps with
      | None => (inl (storage_error "Cannot read properties of undefined (reading 'dateAdded')"), store)
      | Some (apps', isUpdate) =>
          match set_error f with
          | Some e => (inl (storage_error e), store)
          | None => (inr (Success (length orderedImages) (meta_name meta) isUpdate), Some apps')
          end
      end
  end.

(** ** [performSmartScrape] *)

(** Everything one scan reads from its surroundings. *)
Record Page := {
  getPageMeta : string + Meta;     (* the call throws, or returns *)
  viewportHeight : Z;              (* [window.innerHeight] after the initial delay *)
  bodyHeight : Z;                  (* [document.body.scrollHeight] then *)
  observations : list IterObs;
  href : string;                   (* [window.location.href] at save time *)
  now : Z;                         (* [Date.now()] at save time *)
  faults : Faults
}.

Record Outcome := {
  result : ScrapeResult;
  store_after : Store;
  trace : list Effect
}.

(** The outer [catch]: every error becomes an error result. *)
Definition scraping_error (message : string) (store : Store) (eff : list Effect) : Outcome :=
  {| result := Error (JS.or_else message "Unknown scraping error");
     store_after := store; trace := eff |}.

Definition initial_locals (p : Page) : Locals :=
  {| capturedImages := []; scannedUrlSet := ∅; retryCount := 0;
     totalHeight := bodyHeight p; noNewContentCount := 0; scrollPosition := 0 |}.

Section Scrape.
Context {host : Host}.

(** The code after the loop, for a loop left by [break]. *)
Definition finish (p : Page) (initialMeta : Meta) (st : Locals) (store : Store)
    (eff : list Effect) : Outcome :=
  let eff := eff ++ [ScrollTo 0 0] in
  if (length (capturedImages st) =? 0)%nat then
    scraping_error "No screens found. This might not be a valid Mobbin app page." store eff
  else
    match saveToStorage (faults p) (href p) (now p) (capturedImages st) initialMeta store with
    | (inr r, store') => {| result := r; store_after := store'; trace := eff |}
    | (inl message, store') => scraping_error message store' eff
    end.

(** [performSmartScrape]; [None] while the loop is still running when the
    observations end.  No suspension point lies between the loop's last
    evaluation of its condition and the [if (scrapingAborted)] behind the
    loop, so that test finds the flag set exactly when the condition ended
    the loop. *)
Definition performSmartScrape (p : Page) (store : Store) : option Outcome :=
  match getPageMeta p with
  | inl message => Some (scraping_error message store [])
  | inr initialMeta =>
      if decide (meta_name initialMeta = "") then
        Some (scraping_error "Could not detect app name" store [])
      else
        let start := [ScrollTo 0 0; Sleep CONFIG.INITIAL_DELAY] in
        let run := scrollLoop (viewportHeight p) (observations p) (initial_locals p) in
        let eff := start ++ effects run in
        match exit run with
        | Running _ => None
        | Cancelled _ =>
            Some {| result := Aborted "Scrape cancelled by user"; store_after := store; trace := eff |}
        | Failed message => Some (scraping_error message store eff)
        | Converged st => Some (finish p initialMeta st store eff)
        end
  end.

End Scrape.

(** ** The message listener and its two flags *)

Record Flags := { isScraping : bool; scrapingAborted : bool }.

(** What [sendResponse] is called with. *)
Inductive Response :=
| StatusOnly (status : string)             (* [{ status }] *)
| MetaResponse (m : Meta)
| ErrorOnly (error : string)               (* [{ error }] *)
| StatusMessage (status message : string). (* [{ status, message }] *)

(** What the listener does with a request before it returns. *)
Inductive Reply :=
| Respond (r : Response)   (* answered synchronously *)
| Started                  (* [performSmartScrape()] called; the answer comes later *)
| Ignored.                 (* no branch matched *)

(** The listener; [meta] is the outcome of the call to [getPageMeta]. *)
Definition onMessage (meta : string + Meta) (action : string) (g : Flags) : Flags * Reply :=
  if decide (action = "ping") then (g, Respond (StatusOnly "ok"))
  else if decide (action = "get_meta") then
    (g, Respond (match meta with inr m => MetaResponse m | inl e => ErrorOnly e end))
  else if decide (action = "start_scrape") then
    if isScraping g then (g, Respond (StatusMessage "error" "Scrape already in progress"))
    else ({| isScraping := true; scrapingAborted := false |}, Started)
  else if decide (action = "abort_scrape") then
    ({| isScraping := false; scrapingAborted := true |}, Respond (StatusOnly "aborted"))
  else (g, Ignored).

(** The [.then] and [.catch] callbacks attached to a started scan: both
    clear [isScraping] before they respond. *)
Definition onSettled (g : Flags) : Flags :=
  {| isScraping := false; scrapingAborted := scrapingAborted g |}.

(** What can happen to the flags: a request arrives, or a scan that was
    started earlier settles.  The body of [performSmartScrape] reads
    [scrapingAborted] and writes neither flag, so its own steps are not
    events here. *)
Inductive Event :=
| Request (meta : string + Meta) (action : string)
| Settled.

(** The flags together with the number of [performSmartScrape] calls that
    have been started and have not settled yet. *)
Record System := { flags : Flags; in_flight : nat }.

Definition deliver (s : System) (e : Event) : System :=
  match e with
  | Request meta action =>
      let (g, reply) := onMessage meta action (flags s) in
      {| flags := g;
         in_flight := match reply with Started => S (in_flight s) | _ => in_flight s end |}
  | Settled => {| flags := onSettled (flags s); in_flight := Nat.pred (in_flight s) |}
  end.

Definition is_start (e : Event) : bool :=
  match e with
  | Request _ action => bool_decide (action = "start_scrape")
  | Settled => false
  end.

(** ** A scan under the listener *)

Definition set_abort_flag (b : bool) (o : IterObs) : IterObs :=
  {| abort_flag := b; harvest := harvest o; innerHeight := innerHeight o;
     scrollY := scrollY o; scrollHeight := scrollHeight o |}.

(** The observations of a scan that runs under the listener.  Every pass
    comes with the events the listener handles while the scan is suspended
    in front of it: during the initial delay for the first pass, during the
    sleep that ends the pass before for the others.  The flag that the
    evaluation of the loop condition finds is the listener's
    [scrapingAborted] after these events. *)
Fixpoint polled (s : System) (passes : list (list Event * IterObs)) : list IterObs :=
  match passes with
  | [] => []
  | (events, o) :: rest =>
      let s' := foldl deliver s events in
      set_abort_flag (scrapingAborted (flags s')) o :: polled s' rest
  end.

(** The listener after the events of these passes. *)
Definition handled (s : System) (passes : list (list Event * IterObs)) : System :=
  foldl (fun s pass => foldl deliver s (fst pass)) s passes.

(** ** Order preservation, as the specification words it *)

(** Following the specification's words ("the sequence of URLs in first-seen
    order, with no duplicates"): keep the first occurrence of every URL and
    drop each later one. *)
Fixpoint dedupe_preserving_first_occurrence (l : list string) : list string :=
  match l with
  | [] => []
  | u :: l' => u :: filter (fun v => v ≠ u) (dedupe_preserving_first_occurrence l')
  end.

(** The batch one pass through the loop body harvests: what
    [extractImagesFromDOM] returned, nothing when it threw. *)
Definition batch_of (o : IterObs) : list string :=
  match harvest o with
  | inr rawImages => extractImagesFromDOM rawImages
  | inl _ => []
  end.

Definition batches (obs : list IterObs) : list (list string) := map batch_of obs.

(** How many of the passes had a harvest that threw. *)
Definition harvest_failed (o : IterObs) : bool :=
  match harvest o with inl _ => true | inr _ => false end.

Definition failures (obs : list IterObs) : nat := length (filter (fun o => harvest_failed o) obs).

(** The array and the set of one scan agree: the set holds exactly the
    elements of the array, and the array has no repetition. *)
Definition in_sync (st : Locals) : Prop :=
  NoDup (capturedImages st) ∧ ∀ u, u ∈ scannedUrlSet st ↔ u ∈ capturedImages st.

(** The variables of a loop that was left with them alive. *)
Definition exit_state (e : LoopExit) : option Locals :=
  match e with
  | Cancelled st | Converged st | Running st => Some st
  | Failed _ => None
  end.

(** What a batch [l] adds to an array that already holds [c]: the first
    occurrences of its URLs that pass [isValidImageUrl] and are not in [c]. *)
Definition accepted `{Host} (c : list string) (l : list string) : list string :=
  dedupe_preserving_first_occurrence (filter (fun u => isValidImageUrl u ∧ u ∉ c) l).

(** ** The store invariant and identity resolution, as the specification words them *)

(** "At most one collection per matching name-or-id pair": no two entries
    share a name and no two entries share an id. *)
Definition at_most_one_per_key (apps : list App) : Prop :=
  NoDup (name <$> apps) ∧ NoDup (id <$> apps).

(** Following the specification's words ("the last non-empty path segment of
    the source URL"): the segments of [scheme://authority/seg/seg...], query
    and fragment put aside. *)
Definition path_segments (url : string) : list string :=
  match JS.split "/"%char (JS.split_head "?"%char (JS.split_head "#"%char url)) with
  | _ :: _ :: _ :: segments => segments
  | _ => []
  end.

Definition last_nonempty_path_segment (url : string) : option string :=
  last (filter (fun seg => seg ≠ "") (path_segments url)).

(** Following the specification's words: that segment, and the slugified
    name only if there is none. *)
Definition spec_id (url : string) (meta : Meta) : string :=
  match last_nonempty_path_segment url with
  | Some seg => seg
  | None => slugify (meta_name meta)
  end.

(** ** Convergence, as the specification words it *)





(** ** Values for the closed examples *)

Definition ex_meta_foo : Meta :=
  {| meta_name := "Foo"; meta_logo := "https://cdn.mobbin.com/l.png";
     meta_url := "https://mobbin.com/apps/foo-new" |}.

Definition ex_bar : App :=
  {| id := "bar"; name := "Bar"; logo := "l"; sourceUrl := "https://mobbin.com/apps/bar";
     screenCount := 0; screens := []; dateAdded := 5; dateUpdated := 5 |}.

Definition ex_foo_old : App :=
  {| id := "foo-old"; name := "Foo"; logo := "l"; sourceUrl := "https://mobbin.com/apps/foo-old";
     screenCount := 0; screens := []; dateAdded := 7; dateUpdated := 9 |}.

Definition ex_meta_foo_at_bar : Meta :=
  {| meta_name := "Foo"; meta_logo := "https://cdn.mobbin.com/l.png";
     meta_url := "https://mobbin.com/apps/bar" |}.

Definition ex_meta_airbnb : Meta :=
  {| meta_name := "Air  BnB"; meta_logo := "https://cdn.mobbin.com/l.png";
     meta_url := "https://mobbin.com/apps/airbnb/" |}.

(** A page of height 2000 seen through a viewport of 800: three screens come
    into view while the scan scrolls, and the height no longer changes. *)
Definition ex_img (s : string) : Img := {| src := s; closest_li := false |}.

Definition ex_obs (rawImages : list Img) (y : Z) : IterObs :=
  {| abort_flag := false; harvest := inr rawImages;
     innerHeight := 800; scrollY := y; scrollHeight := 2000 |}.

Definition ex_top : IterObs :=
  ex_obs [ex_img "https://cdn.mobbin.com/a.png?w=2"; ex_img "https://cdn.mobbin.com/b.png"] 0.

Definition ex_middle : IterObs :=
  ex_obs [ex_img "https://cdn.mobbin.com/b.png"; ex_img "https://cdn.mobbin.com/c.png"] 800.

Definition ex_bottom : IterObs :=
  ex_obs [ex_img "https://cdn.mobbin.com/b.png"; ex_img "https://cdn.mobbin.com/c.png"] 1200.

(** A pass whose harvest throws. *)
Definition ex_throw : IterObs :=
  {| abort_flag := false; harvest := inl "boom"; innerHeight := 800; scrollY := 1200;
     scrollHeight := 2000 |}.

Definition ex_page (obs : list IterObs) : Page :=
  {| getPageMeta := inr ex_meta_foo; viewportHeight := 800; bodyHeight := 2000;
     observations := obs; href := "https://mobbin.com/apps/foo-new"; now := 2000;
     faults := no_faults |}.




(** A page whose first screen image is served from a [blob:] address, and a
    page whose screen image carries a fragment. *)
Definition ex_blob : IterObs :=
  ex_obs [ex_img "blob:https://mobbin.com/3f1c"; ex_img "https://cdn.mobbin.com/a.png"] 1200.

Definition ex_fragment : IterObs :=
  ex_obs [ex_img "https://cdn.mobbin.com/c.png#v2"] 1200.

(** What the scan of the example page answers, starting from an absent
    store. *)
Definition ex_outcome : Outcome :=
  Eval vm_compute in
    default {| result := Error ""; store_after := None; trace := [] |}
      (performSmartScrape (host := Whatwg.host)
         (ex_page [ex_top; ex_middle; ex_bottom; ex_bottom]) None).

(** What the scans of those two pages answer. *)
Definition ex_blob_outcome : Outcome :=
  Eval vm_compute in
    default {| result := Error ""; store_after := None; trace := [] |}
      (performSmartScrape (host := Whatwg.host) (ex_page [ex_blob; ex_blob]) None).

Definition ex_fragment_outcome : Outcome :=
  Eval vm_compute in
    default {| result := Error ""; store_after := None; trace := [] |}
      (performSmartScrape (host := Whatwg.host) (ex_page [ex_fragment; ex_fragment]) None).

(** The example page when the write to storage is rejected for its size. *)
Definition ex_quota_page : Page :=
  {| getPageMeta := inr ex_meta_foo; viewportHeight := 800; bodyHeight := 2000;
     observations := [ex_top; ex_middle; ex_bottom; ex_bottom];
     href := "https://mobbin.com/apps/foo-new"; now := 2000;
     faults := {| get_error := None; set_error := Some "QUOTA_BYTES quota exceeded" |} |}.

(** The listener right after it has started a scan, and a scan during whose
    second sleep the listener handles [abort_scrape] and then
    [start_scrape].  The scan started second scrolls the page back to its
    top, where the first scan finds it in its second pass. *)
Definition ex_started : System :=
  {| flags := {| isScraping := true; scrapingAborted := false |}; in_flight := 1 |}.

Definition ex_abort_request : Event := Request (inr ex_meta_foo) "abort_scrape".

Definition ex_start_request : Event := Request (inr ex_meta_foo) "start_scrape".

Definition ex_aborted_passes : list (list Event * IterObs) :=
  [([], ex_top); ([ex_abort_request], ex_middle); ([], ex_bottom)].

Definition ex_restarted_passes : list (list Event * IterObs) :=
  [([], ex_top); ([ex_abort_request; ex_start_request], ex_top); ([], ex_bottom);
   ([], ex_bottom)].

(** What the scan over [ex_restarted_passes] answers, starting from a store
    that holds one collection. *)
Definition ex_restarted_outcome : Outcome :=
  Eval vm_compute in
    default {| result := Error ""; store_after := None; trace := [] |}
      (performSmartScrape (host := Whatwg.host)
         (ex_page (polled ex_started ex_restarted_passes)) (Some [ex_bar])).

(** * The rest of the extension

    The functions of [src/content.js], [src/dashboard.js] and the popup
    script in [src/background.js] that prepare what a scan saves or use what
    it saved. *)

From Stdlib Require Import Sorted.

(** ** Further string primitives *)

Module Str.

(** The double quote, written by its code. *)
Definition dquote : string := String "034"%char EmptyString.

(** [s.trimStart()] and [s.trimEnd()]; the white space of [trim] is, within
    Latin-1, the class [\s]. *)
Fixpoint trimStart (s : string) : string :=
  match s with
  | EmptyString => EmptyString
  | String a s' => if JS.is_space a then trimStart s' else s
  end.

Fixpoint trimEnd (s : string) : string :=
  match s with
  | EmptyString => EmptyString
  | String a s' =>
      match trimEnd s' with
      | EmptyString => if JS.is_space a then EmptyString else String a EmptyString
      | t => String a t
      end
  end.

(** [s.trim()] *)
Definition trim (s : string) : string := trimEnd (trimStart s).

(** The letters and digits of ASCII, and the lower case of an ASCII letter:
    what a regular expression with the flag [i] sees of a Latin-1 code
    unit when it looks for [a-z], [0-9] and literal ASCII letters. *)
Definition is_upper_az (a : ascii) : bool :=
  let n := Ascii.nat_of_ascii a in (65 <=? n)%nat && (n <=? 90)%nat.

Definition is_lower_az (a : ascii) : bool :=
  let n := Ascii.nat_of_ascii a in (97 <=? n)%nat && (n <=? 122)%nat.

Definition is_digit (a : ascii) : bool :=
  let n := Ascii.nat_of_ascii a in (48 <=? n)%nat && (n <=? 57)%nat.

Definition is_alnum (a : ascii) : bool := is_upper_az a || is_lower_az a || is_digit a.

Definition fold_az (a : ascii) : ascii :=
  if is_upper_az a then Ascii.ascii_of_nat (Ascii.nat_of_ascii a + 32) else a.

Fixpoint fold_case (s : string) : string :=
  match s with
  | EmptyString => EmptyString
  | String a s' => String (fold_az a) (fold_case s')
  end.

(** [suffix] stands at the end of [s]. *)
Fixpoint ends_with (suffix s : string) : bool :=
  bool_decide (s = suffix)
  || match s with
     | EmptyString => false
     | String _ s' => ends_with suffix s'
     end.

(** [s.replace(/[^a-z0-9]/gi, '_')] *)
Fixpoint replace_non_alnum (s : string) : string :=
  match s with
  | EmptyString => EmptyString
  | String a s' => String (if is_alnum a then a else "_"%char) (replace_non_alnum s')
  end.

(** Template-literal rendering of an integer. *)
Definition of_Z (z : Z) : string :=
  match z with
  | Z0 => "0"
  | Zpos p => JS.of_nat (Pos.to_nat p)
  | Zneg p => "-" +:+ JS.of_nat (Pos.to_nat p)
  end.

(** Every code unit of [s] satisfies [p]. *)
Fixpoint all_chars (p : ascii -> bool) (s : string) : bool :=
  match s with
  | EmptyString => true
  | String a s' => p a && all_chars p s'
  end.

(** [s.charAt(0)] *)
Definition charAt0 (s : string) : string :=
  match s with
  | EmptyString => EmptyString
  | String a _ => String a EmptyString
  end.

End Str.

(** ** [sanitizeText] *)

(** [div.textContent = text; return div.innerHTML]: the serialization of one
    text node, which escapes the ampersand, the two angle brackets and the
    no-break space. *)
Definition escape_char (a : ascii) : string :=
  if Ascii.eqb a "&"%char then "&amp;"
  else if Ascii.eqb a "<"%char then "&lt;"
  else if Ascii.eqb a ">"%char then "&gt;"
  else if Ascii.eqb a "160"%char then "&nbsp;"
  else String a EmptyString.

Fixpoint sanitizeText (text : string) : string :=
  match text with
  | EmptyString => EmptyString
  | String a s => escape_char a +:+ sanitizeText s
  end.

(** The code units [sanitizeText] rewrites. *)
Definition needs_escape (a : ascii) : bool :=
  Ascii.eqb a "&"%char || Ascii.eqb a "<"%char || Ascii.eqb a ">"%char || Ascii.eqb a "160"%char.

Fixpoint has_escapable (s : string) : bool :=
  match s with
  | EmptyString => false
  | String a s' => needs_escape a || has_escapable s'
  end.

(** ** [Array.prototype.sort] *)

(** ECMAScript requires [sort] to be stable and, for a comparator that
    orders consistently, to return the elements in that order; this fixes
    the result, which insertion from the right computes: an element goes
    behind the elements the comparator puts strictly before it and in front
    of its equals that followed it. *)
Fixpoint sort_insert {A} (compareFn : A -> A -> Z) (x : A) (l : list A) : list A :=
  match l with
  | [] => [x]
  | y :: l' => if 0 <? compareFn x y then y :: sort_insert compareFn x l' else x :: l
  end.

Fixpoint sort {A} (compareFn : A -> A -> Z) (l : list A) : list A :=
  match l with
  | [] => []
  | x :: l' => sort_insert compareFn x (sort compareFn l')
  end.

(** Largest key first, as [sort] leaves a list under the comparator
    [key b - key a]. *)
Definition descending {A} (key : A -> Z) (l : list A) : Prop :=
  StronglySorted (fun a b => key b ≤ key a) l.

(** ** The dashboard ([src/dashboard.js]) *)

(** [String.prototype.localeCompare] and [Date.prototype.toLocaleDateString]
    depend on the browser's locale. *)
Class Locale := {
  localeCompare : string -> string -> Z;
  toLocaleDateString : Z -> string
}.

Module Dashboard.

(** The module-level variables of the dashboard, the apps whose cards stand
    in [elements.libraryGrid], and the toasts it has shown, each with its
    type. *)
Record Dash := {
  appsData : list App;
  filteredApps : list App;
  currentApp : option App;
  currentSort : string;
  currentSearch : string;
  grid : list App;
  toasts : list (string * string)
}.

Definition set_appsData (l : list App) (d : Dash) : Dash :=
  {| appsData := l; filteredApps := filteredApps d; currentApp := currentApp d;
     currentSort := currentSort d; currentSearch := currentSearch d; grid := grid d;
     toasts := toasts d |}.

Definition set_filteredApps (l : list App) (d : Dash) : Dash :=
  {| appsData := appsData d; filteredApps := l; currentApp := currentApp d;
     currentSort := currentSort d; currentSearch := currentSearch d; grid := grid d;
     toasts := toasts d |}.

Definition set_currentApp (a : option App) (d : Dash) : Dash :=
  {| appsData := appsData d; filteredApps := filteredApps d; currentApp := a;
     currentSort := currentSort d; currentSearch := currentSearch d; grid := grid d;
     toasts := toasts d |}.

Definition set_currentSearch (s : string) (d : Dash) : Dash :=
  {| appsData := appsData d; filteredApps := filteredApps d; currentApp := currentApp d;
     currentSort := currentSort d; currentSearch := s; grid := grid d; toasts := toasts d |}.

Definition set_currentSort (s : string) (d : Dash) : Dash :=
  {| appsData := appsData d; filteredApps := filteredApps d; currentApp := currentApp d;
     currentSort := s; currentSearch := currentSearch d; grid := grid d; toasts := toasts d |}.

(** [showToast(message, type)] *)
Definition showToast (message type : string) (d : Dash) : Dash :=
  {| appsData := appsData d; filteredApps := filteredApps d; currentApp := currentApp d;
     currentSort := currentSort d; currentSearch := currentSearch d; grid := grid d;
     toasts := toasts d ++ [(message, type)] |}.

(** [renderLibrary]: the grid is emptied, and gets one card for each of
    [filteredApps] unless [appsData] is empty. *)
Definition renderLibrary (d : Dash) : Dash :=
  {| appsData := appsData d; filteredApps := filteredApps d; currentApp := currentApp d;
     currentSort := currentSort d; currentSearch := currentSearch d;
     grid := if decide (appsData d = []) then [] else filteredApps d;
     toasts := toasts d |}.

Section WithLocale.
Context {locale : Locale}.

(** The comparator of [filteredApps.sort]: the [switch] on [currentSort].
    On the numbers of this model [(x.dateAdded || 0)] is [x.dateAdded]. *)
Definition compareFn (currentSort : string) (a b : App) : Z :=
  if decide (currentSort = "name") then localeCompare (name a) (name b)
  else if decide (currentSort = "screens")
       then Z.of_nat (screenCount b) - Z.of_nat (screenCount a)
       else dateAdded b - dateAdded a.

(** [applySortAndFilter] *)
Definition applySortAndFilter (d : Dash) : Dash :=
  let found :=
    if decide (currentSearch d = "") then appsData d
    else filter (fun app => JS.includes (currentSearch d) (JS.toLowerCase (name app)))
           (appsData d) in
  set_filteredApps (sort (compareFn (currentSort d)) found) d.

(** [handleSearch], on the text of the search box. *)
Definition handleSearch (value : string) (d : Dash) : Dash :=
  renderLibrary (applySortAndFilter (set_currentSearch (Str.trim (JS.toLowerCase value)) d)).

(** [clearSearch] *)
Definition clearSearch (d : Dash) : Dash :=
  renderLibrary (applySortAndFilter (set_currentSearch "" d)).

(** [handleSort], on the value of the select box. *)
Definition handleSort (value : string) (d : Dash) : Dash :=
  renderLibrary (applySortAndFilter (set_currentSort value d)).

(** [loadData]: [get_error] is the rejection of [chrome.storage.local.get],
    if any. *)
Definition loadData (get_error : option string) (store : Store) (d : Dash) : Dash :=
  match get_error with
  | Some _ => showToast "Failed to load apps" "error" d
  | None =>
      let apps := default [] store in
      renderLibrary (applySortAndFilter (set_filteredApps apps (set_appsData apps d)))
  end.

(** [showLibrary] *)
Definition showLibrary (d : Dash) : Dash := set_currentApp None d.

(** [openDetail] *)
Definition openDetail (app : App) (d : Dash) : Dash := set_currentApp (Some app) d.

(** [handleDeleteApp]: [confirmed] is the answer to [confirm(...)],
    [set_error] the rejection of [chrome.storage.local.set], if any.  The
    message of the last toast reads [currentApp.name] after [showLibrary]
    has run; reading it off [null] throws, into the same [catch].  The
    function does not call [renderLibrary]. *)
Definition handleDeleteApp (confirmed : bool) (set_error : option string)
    (d : Dash) (store : Store) : Dash * Store :=
  match currentApp d with
  | None => (d, store)
  | Some app =>
      if negb confirmed then (d, store)
      else
        let d1 := set_appsData (filter (fun a => id a ≠ id app) (appsData d)) d in
        match set_error with
        | Some _ => (showToast "Failed to delete app" "error" d1, store)
        | None =>
            let store' : Store := Some (appsData d1) in
            let d2 := applySortAndFilter (set_filteredApps (appsData d1) d1) in
            let d3 := showLibrary d2 in
            match currentApp d3 with
            | Some shown =>
                (showToast ("Deleted " +:+ Str.dquote +:+ name shown +:+ Str.dquote) "success" d3,
                 store')
            | None => (showToast "Failed to delete app" "error" d3, store')
            end
        end
  end.

(** [handleClearAll]: [chrome.storage.local.clear] removes every key. *)
Definition handleClearAll (confirmed : bool) (clear_error : option string)
    (d : Dash) (store : Store) : Dash * Store :=
  if negb confirmed then (d, store)
  else
    match clear_error with
    | Some _ => (showToast "Failed to clear data" "error" d, store)
    | None =>
        (showToast "All data cleared" "success"
           (renderLibrary (set_filteredApps [] (set_appsData [] d))), None)
    end.

(** The largest time value of a [Date], in milliseconds on either side of
    1970: [new Date(t)] is an invalid date for an integer [t] beyond it. *)
Definition MAX_TIME : Z := 8640000000000000.

(** [formatDate]; [now] is [new Date()], the reading of the clock: a valid
    time, taken to be not before 1970.  On an invalid date the difference is
    [NaN], every comparison fails and [toLocaleDateString] answers "Invalid
    Date".  For a valid one the numbers are integers that the arithmetic of
    the language computes exactly up to a difference of 2^53 ms, beyond
    which the days are more than 365 in any case. *)
Definition formatDate (now timestamp : Z) : string :=
  if timestamp =? 0 then "Unknown"
  else if MAX_TIME <? Z.abs timestamp then "Invalid Date"
  else
    let diffMs := now - timestamp in
    let diffDays := diffMs / (1000 * 60 * 60 * 24) in
    if diffDays =? 0 then "Today"
    else if diffDays =? 1 then "Yesterday"
    else if diffDays <? 7 then Str.of_Z diffDays +:+ " days ago"
    else if diffDays <? 30 then Str.of_Z (diffDays / 7) +:+ " weeks ago"
    else if diffDays <? 365 then Str.of_Z (diffDays / 30) +:+ " months ago"
    else toLocaleDateString timestamp.

End WithLocale.

(** The regular expression [/\.(png|jpg|jpeg|webp)$/i]. *)
Definition has_image_extension (filename : string) : bool :=
  let folded := Str.fold_case filename in
  Str.ends_with ".png" folded || Str.ends_with ".jpg" folded
  || Str.ends_with ".jpeg" folded || Str.ends_with ".webp" folded.

(** What [downloadImage] hands to [chrome.downloads.download]. *)
Record Download := { download_url : string; download_filename : string }.

(** [downloadImage] *)
Definition downloadImage (url prefix : string) : Download :=
  let filename := JS.split_head "?"%char (JS.last_part (JS.split "/"%char url)) in
  let filename := if has_image_extension filename then filename else filename +:+ ".png" in
  let filename :=
    if decide (prefix = "") then filename
    else Str.replace_non_alnum prefix +:+ "/" +:+ filename in
  {| download_url := url; download_filename := filename |}.

(** [sanitizeUrl] *)
Definition sanitizeUrl `{Host} (url : string) : string :=
  match URL_protocol url with
  | Some p =>
      if bool_decide (p ≠ "http:") && bool_decide (p ≠ "https:") then "about:blank" else url
  | None => "about:blank"
  end.

End Dashboard.

(** ** Page metadata ([getPageMeta] and its helpers in [src/content.js]) *)

(** [new URL(url, base)] either throws ([None]) or yields a record, of which
    the script reads [origin] and [pathname]. *)
Class Resolver := { URL_origin_pathname : string -> string -> option (string * string) }.

(** [encodeURIComponent] is the browser's as well.  It answers with the
    escaped text ([inr]), or throws a [URIError] ([inl], with its message)
    when the text holds a lone surrogate, which is what [charAt(0)] leaves
    of a character outside the Basic Multilingual Plane.  The strings of
    this development do not tell such a first code unit from another, so
    the function is a parameter, of which only this is used: the empty text
    stays empty. *)
Class Encoder := {
  encodeURIComponent : string -> string + string;
  encodeURIComponent_empty : encodeURIComponent "" = inr ""
}.

Module PageMeta.

(** An [img] element the logo strategies look at: [img.src], its [src]
    attribute ([null] is the empty string here), whether [closest] finds a
    [nav], a [header] or a [[role="banner"]] ancestor, and the width and
    height of its bounding rectangle, in whole pixels. *)
Record LogoImg := {
  img_src : string;
  attr_src : string;
  in_nav : bool;
  in_header : bool;
  in_banner : bool;
  rect_width : Z;
  rect_height : Z
}.

(** A text as its pieces between em dashes: the piece before the first em
    dash, and the pieces behind it.  The em dash is no code unit of this
    model, so [text.split('—')] is given with the text, and [[0]] of it is
    the first component. *)
Definition Pieces : Type := string * list string.

(** What the functions read of the document.  [nearbyImg] is
    [h1.parentElement?.querySelector('img')]; it is consulted only when
    there is an [h1]. *)
Record Dom := {
  h1_innerText : option Pieces;
  title : Pieces;
  appLogoImages : list LogoImg;
  appLogoContainer : option LogoImg;
  nearbyImg : option LogoImg;
  location_href : string
}.

(** A candidate of the first strategy. *)
Record Candidate := { url : string; area : Z }.

(** [encodeURIComponent] on Latin-1 code units, for the closed examples:
    the unreserved characters stay, the others become the percent-escapes
    of their UTF-8 bytes.  It never throws. *)
Definition hex_digit (n : nat) : ascii :=
  Ascii.ascii_of_nat (if (n <? 10)%nat then 48 + n else 55 + n).

Definition percent (byte : nat) : string :=
  String "%"%char (String (hex_digit (byte / 16)) (String (hex_digit (byte mod 16)) EmptyString)).

Definition is_unreserved (a : ascii) : bool :=
  Str.is_alnum a
  || bool_decide (a ∈ ["-"; "_"; "."; "!"; "~"; "*"; "'"; "("; ")"]%char).

Definition encode_unit (a : ascii) : string :=
  let n := Ascii.nat_of_ascii a in
  if is_unreserved a then String a EmptyString
  else if (n <? 128)%nat then percent n
  else percent (192 + n / 64) +:+ percent (128 + n mod 64).

Fixpoint encode_latin1 (s : string) : string :=
  match s with
  | EmptyString => EmptyString
  | String a s' => encode_unit a +:+ encode_latin1 s'
  end.

Definition latin1 : Encoder :=
  {| encodeURIComponent := fun s => inr (encode_latin1 s);
     encodeURIComponent_empty := eq_refl |}.

Section WithHost.
Context {host : Host} {resolver : Resolver} {encoder : Encoder}.

(** The placeholder of [getPageMeta]: the template literal, whose evaluation
    throws when [encodeURIComponent] does. *)
Definition placeholder (appName : string) : string + string :=
  match encodeURIComponent (Str.charAt0 appName) with
  | inr text => inr ("https://via.placeholder.com/100?text=" +:+ text)
  | inl message => inl message
  end.

(** [normalizeLogoUrl]; [base] is [window.location.href]. *)
Definition normalizeLogoUrl (base url : string) : string :=
  if decide (url = "") then ""
  else match URL_origin_pathname url base with
       | Some (origin, pathname) => origin +:+ pathname
       | None => JS.split_head "#"%char (JS.split_head "?"%char url)
       end.

Definition outside_nav (img : LogoImg) : bool :=
  negb (in_nav img) && negb (in_header img) && negb (in_banner img).

(** The callback of [map]: the candidate an image makes. *)
Definition candidate (d : Dom) (img : LogoImg) : Candidate :=
  {| url := normalizeLogoUrl (location_href d) (JS.or_else (img_src img) (attr_src img));
     area := rect_width img * rect_height img |}.

(** The candidates of the first strategy, as [filter], [map], [filter] leave
    them. *)
Definition candidates (d : Dom) : list Candidate :=
  filter (fun c => url c ≠ "" ∧ 0 < area c)
    (map (candidate d) (filter (fun img => outside_nav img) (appLogoImages d))).

(** The third strategy of [extractMainLogo]: a large image beside the [h1]. *)
Definition nearby_logo (d : Dom) : string :=
  match h1_innerText d, nearbyImg d with
  | Some _, Some near =>
      if negb (in_nav near) && negb (in_header near)
         && (60 <=? rect_width near) && (60 <=? rect_height near)
      then normalizeLogoUrl (location_href d) (JS.or_else (img_src near) (attr_src near))
      else ""
  | _, _ => ""
  end.

(** [extractMainLogo]: the largest candidate, else the image of the logo
    container, else the image beside the heading, else nothing. *)
Definition extractMainLogo (d : Dom) : string :=
  match sort (fun a b => area b - area a) (candidates d) with
  | best :: _ => url best
  | [] =>
      match appLogoContainer d with
      | Some img =>
          if negb (in_nav img) && negb (in_header img)
          then normalizeLogoUrl (location_href d) (JS.or_else (img_src img) (attr_src img))
          else nearby_logo d
      | None => nearby_logo d
      end
  end.

(** The name [getPageMeta] computes in lines 432-438. *)
Definition appName (d : Dom) : string :=
  let text := match h1_innerText d with Some t => t | None => title d end in
  sanitizeText (Str.trim (fst text)).

(** [getPageMeta]: the record it returns ([inr]), or the message of the
    error it throws ([inl]). *)
Definition getPageMeta (d : Dom) : string + Meta :=
  let logoUrl := extractMainLogo d in
  if bool_decide (logoUrl = "") || negb (isValidImageUrl logoUrl)
  then match placeholder (appName d) with
       | inr logoUrl =>
           inr {| meta_name := appName d; meta_logo := logoUrl; meta_url := location_href d |}
       | inl message => inl message
       end
  else inr {| meta_name := appName d; meta_logo := logoUrl; meta_url := location_href d |}.

End WithHost.

End PageMeta.

(** ** The popup ([src/background.js], third script) *)

Module Popup.

Module CONFIG.
Definition INJECTION_RETRY_DELAY : Z := 500.
Definition MAX_INJECTION_RETRIES : nat := 3.
End CONFIG.

(** What one pass of the injection loop meets: the answer of the ping
    before injecting ([checkContentScriptInjected] resolves to a boolean,
    or its executor throws), the error of [chrome.scripting.executeScript]
    if it throws, and the answer of the ping after the injection. *)
Record Attempt := {
  ping_before : string + bool;
  inject_error : option string;
  ping_after : string + bool
}.

(** What the loop does to the tab and the clock. *)
Inductive Act :=
| ExecuteScript
| Wait (ms : Z).

(** The [catch] block of pass number [attempt]; [None] when it returns. *)
Definition caught (attempt : nat) (message : string) : option bool * list Act :=
  if bool_decide (message ≠ "") && JS.includes "Cannot access" message then (Some false, [])
  else if (attempt <? CONFIG.MAX_INJECTION_RETRIES - 1)%nat
       then (None, [Wait (CONFIG.INJECTION_RETRY_DELAY * (Z.of_nat attempt + 1))])
       else (None, []).

(** One pass of the [for] loop: the value it returns, if it returns, and
    what it did. *)
Definition attempt_once (attempt : nat) (o : Attempt) : option bool * list Act :=
  match ping_before o with
  | inl e => caught attempt e
  | inr true => (Some true, [])
  | inr false =>
      match inject_error o with
      | Some e => let (r, acts) := caught attempt e in (r, ExecuteScript :: acts)
      | None =>
          match ping_after o with
          | inl e =>
              let (r, acts) := caught attempt e in
              (r, [ExecuteScript; Wait CONFIG.INJECTION_RETRY_DELAY] ++ acts)
          | inr verified =>
              (if verified then Some true else None,
               [ExecuteScript; Wait CONFIG.INJECTION_RETRY_DELAY])
          end
      end
  end.

(** The loop from pass [attempt] on, with [fuel] passes left. *)
Fixpoint inject_loop (fuel attempt : nat) (env : nat -> Attempt) : bool * list Act :=
  match fuel with
  | O => (false, [])
  | S fuel' =>
      match attempt_once attempt (env attempt) with
      | (Some r, acts) => (r, acts)
      | (None, acts) =>
          let (r, rest) := inject_loop fuel' (S attempt) env in (r, acts ++ rest)
      end
  end.

(** [injectContentScriptWithRetry] *)
Definition injectContentScriptWithRetry (env : nat -> Attempt) : bool * list Act :=
  inject_loop CONFIG.MAX_INJECTION_RETRIES 0 env.

Definition waited (acts : list Act) : Z :=
  foldr (fun a t => match a with Wait ms => ms + t | ExecuteScript => t end) 0 acts.

Definition injections (acts : list Act) : nat :=
  foldr (fun a n => match a with ExecuteScript => S n | Wait _ => n end) 0%nat acts.

(** A pass in which the content script answers a ping: the one before the
    injection, or the one after an injection that did not throw. *)
Definition answered (o : Attempt) : Prop :=
  ping_before o = inr true
  ∨ (ping_before o = inr false ∧ inject_error o = None ∧ ping_after o = inr true).

End Popup.

(** ** Values for the closed examples of the dashboard *)

(** A locale that compares names code unit by code unit. *)
Definition ex_locale : Locale :=
  {| localeCompare := fun a b =>
       match String.compare a b with Lt => -1 | Eq => 0 | Gt => 1 end;
     toLocaleDateString := fun _ => "1/1/2020" |}.

Definition ex_dash : Dashboard.Dash :=
  {| Dashboard.appsData := [ex_bar; ex_foo_old];
     Dashboard.filteredApps := [ex_bar; ex_foo_old];
     Dashboard.currentApp := Some ex_foo_old;
     Dashboard.currentSort := "recent";
     Dashboard.currentSearch := "";
     Dashboard.grid := [ex_bar; ex_foo_old];
     Dashboard.toasts := [] |}.

(** ** Values for the closed examples of the page metadata *)

(** A reference resolver for the closed examples: absolute [http] and
    [https] addresses with a host the reference parser accepts.  The origin
    is the scheme and the lower-cased host, the path name what follows the
    host up to the query or the fragment, or a slash when nothing follows.
    Relative addresses, ports and dot segments lie outside what it decides
    and are reported as failures. *)
Fixpoint ex_after_host (s : string) : string :=
  match s with
  | EmptyString => EmptyString
  | String a s' =>
      if Ascii.eqb a "/"%char || Ascii.eqb a "\"%char || Ascii.eqb a "?"%char || Ascii.eqb a "#"%char
      then s else ex_after_host s'
  end.

Definition ex_origin_pathname (url base : string) : option (string * string) :=
  match Whatwg.scheme_start url with
  | Some (scheme, rest) =>
      if bool_decide (scheme ∈ ["http"; "https"]) then
        let after := Whatwg.skip_slashes rest in
        let h := Whatwg.host_of after in
        if bool_decide (h ≠ "") && Whatwg.plain_host h then
          let path := JS.split_head "#"%char (JS.split_head "?"%char (ex_after_host after)) in
          Some (scheme +:+ "://" +:+ JS.toLowerCase h, if decide (path = "") then "/" else path)
        else None
      else None
  | None => None
  end.

Definition ex_resolver : Resolver := {| URL_origin_pathname := ex_origin_pathname |}.

Definition ex_logo (s : string) (nav : bool) (w h : Z) : PageMeta.LogoImg :=
  {| PageMeta.img_src := s; PageMeta.attr_src := s; PageMeta.in_nav := nav;
     PageMeta.in_header := false; PageMeta.in_banner := false;
     PageMeta.rect_width := w; PageMeta.rect_height := h |}.

(** A page with three logo images: a large one in the navigation bar, a
    thumbnail and the main logo. *)
Definition ex_dom : PageMeta.Dom :=
  {| PageMeta.h1_innerText := Some ("  Foo & Co ", [" iOS"]);
     PageMeta.title := ("Mobbin", []);
     PageMeta.appLogoImages :=
       [ex_logo "https://cdn.mobbin.com/nav.png" true 200 200;
        ex_logo "https://cdn.mobbin.com/thumb.png?w=40" false 40 40;
        ex_logo "https://cdn.mobbin.com/main.png?w=100#x" false 100 100];
     PageMeta.appLogoContainer := None;
     PageMeta.nearbyImg := None;
     PageMeta.location_href := "https://mobbin.com/apps/foo-new" |}.

(** A page whose heading is blank before its em dash although its title is
    not. *)
Definition ex_blank_dom : PageMeta.Dom :=
  {| PageMeta.h1_innerText := Some ("   ", [" Foo"]);
     PageMeta.title := ("Mobbin", []);
     PageMeta.appLogoImages := [];
     PageMeta.appLogoContainer := None;
     PageMeta.nearbyImg := None;
     PageMeta.location_href := "https://mobbin.com/apps/foo-new" |}.

Definition ex_blank_page : Page :=
  {| getPageMeta :=
       PageMeta.getPageMeta (host := Whatwg.host) (resolver := ex_resolver)
         (encoder := PageMeta.latin1) ex_blank_dom;
     viewportHeight := 800; bodyHeight := 2000;
     observations := [ex_top; ex_middle; ex_bottom; ex_bottom];
     href := "https://mobbin.com/apps/foo-new"; now := 2000;
     faults := no_faults |}.

(** A tab that never answers the ping, and a restricted tab. *)
Definition ex_silent : Popup.Attempt :=
  {| Popup.ping_before := inr false; Popup.inject_error := None;
     Popup.ping_after := inr false |}.

Definition ex_restricted : Popup.Attempt :=
  {| Popup.ping_before := inr false;
     Popup.inject_error := Some "Cannot access a chrome:// URL";
     Popup.ping_after := inr false |}.

(** * Properties *)

(** ** The primitives on small inputs *)

Example split_ex :
  JS.split "/" "https://mobbin.com/apps/airbnb/"
  = ["https:"; ""; "mobbin.com"; "apps"; "airbnb"; ""].
Proof. reflexivity. Qed.

Example slugify_ex : slugify "Air  BnB	Pro" = "air-bnb-pro".
Proof. reflexivity. Qed.

Example appId_ex :
  appId_of "https://mobbin.com/apps/airbnb?tab=flows" ex_meta_airbnb = "airbnb?tab=flows"
  ∧ appId_of "https://mobbin.com" ex_meta_airbnb = "mobbin.com"
  ∧ appId_of "https://mobbin.com/" ex_meta_airbnb = "air-bnb".
Proof. repeat split. Qed.

Example extract_ex :
  extractImagesFromDOM
    [ {| src := "https://cdn.mobbin.com/a.png?w=2"; closest_li := false |};
      {| src := "https://cdn.mobbin.com/b.png"; closest_li := true |};
      {| src := "blob:https://mobbin.com/3f1c"; closest_li := false |};
      {| src := "data:image/png;base64,AAAA"; closest_li := false |};
      {| src := "https://cdn.mobbin.com/c.png#v2"; closest_li := false |} ]
  = ["https://cdn.mobbin.com/a.png"; "blob:https://mobbin.com/3f1c";
     "https://cdn.mobbin.com/c.png#v2"].
Proof. reflexivity. Qed.

Example valid_ex :
  map (isValidImageUrl (host := Whatwg.host))
      ["https://cdn.mobbin.com/a.png"; "blob:https://mobbin.com/3f1c"; "HTTP://x.y/z";
       "http:"; ""; "/a/b"]
  = [true; false; true; false; false; false].
Proof. reflexivity. Qed.

Example findIndex_ex :
  findIndex (is_duplicate ex_meta_foo "foo-new") [ex_bar; ex_foo_old] = 1
  ∧ findIndex (is_duplicate ex_meta_foo "foo-new") [ex_bar] = -1.
Proof. split; reflexivity. Qed.

Example scan_ex :
  result ex_outcome = Success 3 "Foo" false
  ∧ trace ex_outcome
    = [ ScrollTo 0 0; Sleep 500;
        Progress "Scanning... Found 2 screens"; ScrollBy 800; Sleep 500;
        Progress "Scanning... Found 3 screens"; ScrollBy 800; Sleep 500;
        Progress "Scanning... Found 3 screens"; ScrollBy 800; Sleep 500;
        Progress "Scanning... Found 3 screens"; ScrollTo 0 0 ].
Proof. split; reflexivity. Qed.

(** ** Facts about the string primitives *)

Lemma split_head_no_sep (c : ascii) (s : string) :
  JS.includes (String c EmptyString) (JS.split_head c s) = false.
Proof.
  induction s as [|b s IH]; simpl; [done|].
  destruct (Ascii.eqb_spec b c) as [->|Hne]; simpl; [done|].
  rewrite IH. destruct (ascii_dec c b) as [->|]; [done|].
  by rewrite orb_false_r.
Qed.

(** ** First-seen order *)

Local Abbreviation dedupe := dedupe_preserving_first_occurrence.

Lemma dedupe_elem_of (l : list string) u : u ∈ dedupe l ↔ u ∈ l.
Proof.
  induction l as [|v l IH]; simpl; [done|].
  rewrite !elem_of_cons, list_elem_of_filter, IH.
  destruct (decide (u = v)); naive_solver.
Qed.

Lemma dedupe_NoDup (l : list string) : NoDup (dedupe l).
Proof.
  induction l as [|v l IH]; simpl; [constructor|].
  constructor.
  - rewrite list_elem_of_filter. naive_solver.
  - by apply NoDup_filter.
Qed.

Lemma filter_filter_comm {A} (P Q : A → Prop) `{!∀ x, Decision (P x)} `{!∀ x, Decision (Q x)}
    (l : list A) :
  filter P (filter Q l) = filter Q (filter P l).
Proof. rewrite !list_filter_filter. apply list_filter_iff. naive_solver. Qed.

Lemma dedupe_filter (P : string → Prop) `{!∀ x, Decision (P x)} (l : list string) :
  filter P (dedupe l) = dedupe (filter P l).
Proof.
  induction l as [|v l IH]; simpl; [done|].
  rewrite !filter_cons. destruct (decide (P v)) as [Hv|Hv]; simpl.
  - f_equal. rewrite filter_filter_comm. by rewrite IH.
  - rewrite <- IH, list_filter_filter. apply list_filter_iff.
    intros x. split; [naive_solver|]. intros Hx. split; [done|]. by intros ->.
Qed.

Lemma filter_all {A} (P : A → Prop) `{!∀ x, Decision (P x)} (l : list A) :
  (∀ x, x ∈ l → P x) → filter P l = l.
Proof.
  induction l as [|v l IH]; intros Hl; [done|].
  rewrite filter_cons_True by (apply Hl; left).
  f_equal. apply IH. intros x Hx. apply Hl. by right.
Qed.

Lemma dedupe_app (l1 l2 : list string) :
  dedupe (l1 ++ l2) = dedupe l1 ++ filter (fun u => u ∉ l1) (dedupe l2).
Proof.
  induction l1 as [|v l1 IH]; simpl.
  - symmetry. apply filter_all. intros x _. apply not_elem_of_nil.
  - f_equal. rewrite IH, filter_app, list_filter_filter. f_equal.
    apply list_filter_iff. intros x. rewrite not_elem_of_cons. naive_solver.
Qed.

Section LoopFacts.
Context {host : Host}.

Lemma accepted_nil_l (l : list string) :
  accepted [] l = dedupe (filter (fun u => isValidImageUrl u) l).
Proof.
  unfold accepted. f_equal. apply list_filter_iff. intros u.
  split; [naive_solver|]. intros Hu. split; [done|]. apply not_elem_of_nil.
Qed.

Lemma accepted_app (c l1 l2 : list string) :
  accepted c (l1 ++ l2) = accepted c l1 ++ accepted (c ++ accepted c l1) l2.
Proof.
  unfold accepted. rewrite filter_app, dedupe_app. f_equal.
  rewrite dedupe_filter, list_filter_filter. f_equal.
  apply list_filter_iff. intros u.
  rewrite not_elem_of_app, dedupe_elem_of, !list_elem_of_filter. naive_solver.
Qed.

Lemma accepted_NoDup (c l : list string) : NoDup c → NoDup (c ++ accepted c l).
Proof.
  intros Hc. apply NoDup_app. split; [done|]. split.
  - intros u Hu. unfold accepted. rewrite dedupe_elem_of, list_elem_of_filter. naive_solver.
  - apply dedupe_NoDup.
Qed.

Lemma collect_frame (st : Locals) (u : string) :
  retryCount (collect st u) = retryCount st
  ∧ totalHeight (collect st u) = totalHeight st
  ∧ noNewContentCount (collect st u) = noNewContentCount st
  ∧ scrollPosition (collect st u) = scrollPosition st.
Proof. unfold collect. by destruct (_ && _). Qed.

Lemma foldl_collect_frame (l : list string) (st : Locals) :
  retryCount (foldl collect st l) = retryCount st
  ∧ totalHeight (foldl collect st l) = totalHeight st
  ∧ noNewContentCount (foldl collect st l) = noNewContentCount st
  ∧ scrollPosition (foldl collect st l) = scrollPosition st.
Proof.
  revert st. induction l as [|u l IH]; intros st; simpl; [done|].
  destruct (IH (collect st u)) as (-> & -> & -> & ->). apply collect_frame.
Qed.

(** One batch: the array grows by the batch's fresh valid URLs, each once,
    in the order of their first occurrence, and the set follows it. *)
Lemma foldl_collect_spec (l : list string) (st : Locals) :
  in_sync st →
  capturedImages (foldl collect st l) = capturedImages st ++ accepted (capturedImages st) l
  ∧ in_sync (foldl collect st l).
Proof.
  revert st. induction l as [|u l IH]; intros st [Hnd Hset]; simpl.
  - unfold accepted. rewrite filter_nil. simpl. by rewrite app_nil_r.
  - unfold collect at 2 4.
    destruct (decide (u ∈ scannedUrlSet st)) as [Hin|Hin].
    + rewrite bool_decide_true by done. simpl.
      destruct (IH st) as [-> Hs]; [done|]. split; [|done].
      f_equal. unfold accepted. rewrite filter_cons_False; [done|].
      intros [_ Hu]. apply Hu. by apply Hset.
    + rewrite bool_decide_false by done. simpl.
      destruct (isValidImageUrl u) eqn:Hv.
      * set (st1 := Build_Locals _ _ _ _ _ _).
        assert (Hin' : u ∉ capturedImages st) by (by rewrite <- Hset).
        destruct (IH st1) as [-> Hs].
        { split; simpl.
          - apply NoDup_app. split; [done|]. split; [|apply NoDup_singleton].
            intros v Hv' ->%list_elem_of_singleton. done.
          - intros v. rewrite elem_of_union, elem_of_singleton, elem_of_app,
              list_elem_of_singleton, Hset. naive_solver. }
        split; [|done]. simpl. rewrite <- app_assoc. f_equal. simpl.
        unfold accepted. rewrite filter_cons_True by (by rewrite Hv).
        simpl. f_equal. rewrite dedupe_filter, list_filter_filter. f_equal.
        apply list_filter_iff. intros v.
        rewrite not_elem_of_app, list_elem_of_singleton. naive_solver.
      * destruct (IH st) as [-> Hs]; [done|]. split; [|done].
        f_equal. unfold accepted. rewrite filter_cons_False; [done|].
        rewrite Hv. naive_solver.
Qed.

(** One pass through the loop body treats the array and the set exactly as
    the [forEach] over that pass's batch does. *)
Lemma iteration_collects (vh : Z) (o : IterObs) (st st' : Locals) (eff : list Effect) :
  iteration vh o st = (Continue st', eff) ∨ iteration vh o st = (Break st', eff) →
  capturedImages st' = capturedImages (foldl collect st (batch_of o))
  ∧ scannedUrlSet st' = scannedUrlSet (foldl collect st (batch_of o)).
Proof.
  unfold iteration, batch_of, scrollDown.
  destruct (harvest o) as [msg|imgs]; cbv beta iota zeta.
  - destruct (Nat.leb _ _); intros [H|H]; by inversion H.
  - destruct (Z.leb _ _); [destruct (Z.eqb _ _); [destruct (Nat.leb _ _)|]|];
      intros [H|H]; by inversion H.
Qed.

Lemma iteration_in_sync (vh : Z) (o : IterObs) (st st' : Locals) (eff : list Effect) :
  in_sync st →
  iteration vh o st = (Continue st', eff) ∨ iteration vh o st = (Break st', eff) →
  capturedImages st' = capturedImages st ++ accepted (capturedImages st) (batch_of o)
  ∧ in_sync st'.
Proof.
  intros Hs Hit. destruct (iteration_collects _ _ _ _ _ Hit) as [Hc Hu].
  destruct (foldl_collect_spec (batch_of o) st Hs) as [Hc' [Hnd Hset]].
  split; [congruence|]. split; [congruence|]. intros u. by rewrite Hc, Hu.
Qed.

(** However the loop is left with its variables alive, the array holds the
    first occurrences of the valid URLs of the batches harvested so far. *)
Lemma scrollLoop_captured (vh : Z) (obs : list IterObs) (st st' : Locals) :
  in_sync st →
  exit_state (exit (scrollLoop vh obs st)) = Some st' →
  capturedImages st'
  = capturedImages st
    ++ accepted (capturedImages st)
         (concat (batches (take (rounds (scrollLoop vh obs st)) obs)))
  ∧ in_sync st'.
Proof.
  revert st. induction obs as [|o obs IH]; intros st Hs; simpl.
  - intros [= <-]. unfold accepted. simpl. by rewrite app_nil_r.
  - destruct (abort_flag o); simpl.
    { intros [= <-]. unfold accepted. simpl. by rewrite app_nil_r. }
    destruct (iteration vh o st) as [[st1|st1|msg] eff] eqn:Hit; simpl.
    + intros Hex. destruct (iteration_in_sync vh o st st1 eff Hs) as [Hc Hs1]; [by left|].
      destruct (IH st1 Hs1 Hex) as [-> Hs']. split; [|done].
      rewrite Hc, accepted_app, <- app_assoc. done.
    + intros [= <-]. destruct (iteration_in_sync vh o st st1 eff Hs) as [Hc Hs1]; [by right|].
      split; [|done]. simpl. by rewrite app_nil_r.
    + done.
Qed.

End LoopFacts.

(** ** Facts about [split] and [findIndex] *)

Lemma includes_char_cons (c a : ascii) (s : string) :
  JS.includes (String c EmptyString) (String a s)
  = bool_decide (c = a) || JS.includes (String c EmptyString) s.
Proof.
  simpl. destruct (ascii_dec c a) as [->|Hne].
  - rewrite bool_decide_true by done. by destruct s.
  - by rewrite bool_decide_false by done.
Qed.

Lemma append_cons (a : ascii) (s t : string) : String a s +:+ t = String a (s +:+ t).
Proof. reflexivity. Qed.

Lemma append_empty_l (s : string) : "" +:+ s = s.
Proof. reflexivity. Qed.

Lemma append_empty_r (s : string) : s +:+ "" = s.
Proof. induction s as [|a s IH]; [done|]. by rewrite append_cons, IH. Qed.

Lemma append_snoc (cur : string) (a : ascii) (s : string) :
  (cur +:+ String a EmptyString) +:+ s = cur +:+ String a s.
Proof. induction cur as [|b cur IH]; [done|]. by rewrite !append_cons, IH. Qed.

Lemma split_acc_no_sep (c : ascii) (cur s : string) :
  JS.includes (String c EmptyString) s = false → JS.split_acc c cur s = [cur +:+ s].
Proof.
  revert cur. induction s as [|a s IH]; intros cur Hs.
  - simpl. by rewrite append_empty_r.
  - rewrite includes_char_cons in Hs. apply orb_false_elim in Hs as [Hca Hs].
    apply bool_decide_eq_false in Hca. simpl.
    destruct (Ascii.eqb_spec a c) as [->|_]; [done|].
    by rewrite IH, append_snoc.
Qed.

Lemma split_acc_not_nil (c : ascii) (cur s : string) : JS.split_acc c cur s ≠ [].
Proof.
  revert cur. induction s as [|a s IH]; intros cur; simpl; [done|].
  destruct (Ascii.eqb a c); [done | apply IH].
Qed.

Lemma last_cons_not_nil {A} (x d : A) (l : list A) : l ≠ [] → List.last (x :: l) d = List.last l d.
Proof. by destruct l. Qed.

Lemma last_split_acc (c : ascii) (pre tail cur d : string) :
  JS.includes (String c EmptyString) tail = false →
  List.last (JS.split_acc c cur (pre +:+ String c tail)) d = tail.
Proof.
  intros Htail. revert cur.
  induction pre as [|a pre IH]; intros cur.
  - change ("" +:+ String c tail) with (String c tail). simpl.
    rewrite Ascii.eqb_refl, last_cons_not_nil by apply split_acc_not_nil.
    by rewrite split_acc_no_sep.
  - rewrite append_cons. simpl. destruct (Ascii.eqb a c); [|apply IH].
    rewrite last_cons_not_nil by apply split_acc_not_nil. apply IH.
Qed.

(** The last piece of [s.split(c)] is the text behind the last [c]. *)
Lemma last_part_split (c : ascii) (pre tail : string) :
  JS.includes (String c EmptyString) tail = false →
  JS.last_part (JS.split c (pre +:+ String c tail)) = tail.
Proof. apply last_split_acc. Qed.

Lemma last_part_split_no_sep (c : ascii) (s : string) :
  JS.includes (String c EmptyString) s = false → JS.last_part (JS.split c s) = s.
Proof. intros Hs. unfold JS.split, JS.last_part. by rewrite split_acc_no_sep. Qed.

Lemma findIndex_from_spec {A} (p : A → bool) (i : Z) (l : list A) :
  (findIndex_from p i l = -1 ∧ ∀ x, x ∈ l → p x = false)
  ∨ (∃ k x, findIndex_from p i l = i + Z.of_nat k ∧ l !! k = Some x ∧ p x = true
            ∧ ∀ j y, (j < k)%nat → l !! j = Some y → p y = false).
Proof.
  revert i. induction l as [|x l IH]; intros i; simpl.
  - left. split; [done|]. intros x Hx. inversion Hx.
  - destruct (p x) eqn:Hpx.
    + right. exists 0%nat, x. repeat split; [lia | done | lia].
    + destruct (IH (i + 1)) as [[Hm Hall]|(k & y & Hk & Hy & Hpy & Hlt)].
      * left. split; [done|]. intros z [->|Hz]%elem_of_cons; auto.
      * right. exists (S k), y. repeat split; [lia | done | done |].
        intros [|j] z Hj Hz; simpl in Hz; [by inversion Hz; subst|].
        apply (Hlt j); [lia | done].
Qed.

(** [findIndex] answers -1 exactly when no element satisfies the predicate. *)
Lemma findIndex_none {A} (p : A → bool) (l : list A) :
  (∀ x, x ∈ l → p x = false) → findIndex p l = -1.
Proof.
  intros Hall. unfold findIndex.
  destruct (findIndex_from_spec p 0 l) as [[H _]|(k & x & _ & Hx & Hpx & _)]; [done|].
  rewrite Hall in Hpx; [done|]. by eapply list_elem_of_lookup_2.
Qed.

(** [findIndex] answers the first index whose element satisfies it. *)
Lemma findIndex_first {A} (p : A → bool) (l : list A) (k : nat) (x : A) :
  l !! k = Some x → p x = true →
  (∀ j y, (j < k)%nat → l !! j = Some y → p y = false) →
  findIndex p l = Z.of_nat k.
Proof.
  intros Hx Hpx Hlt. unfold findIndex.
  destruct (findIndex_from_spec p 0 l) as [[_ Hall]|(k' & x' & -> & Hx' & Hpx' & Hlt')].
  - rewrite Hall in Hpx; [done|]. by eapply list_elem_of_lookup_2.
  - destruct (Nat.lt_trichotomy k k') as [Hc|[->|Hc]]; [|lia|].
    + rewrite (Hlt' k x Hc Hx) in Hpx. done.
    + rewrite (Hlt k' x' Hc Hx') in Hpx'. done.
Qed.

Lemma is_duplicate_iff (meta : Meta) (appId : string) (a : App) :
  is_duplicate meta appId a = true ↔ name a = meta_name meta ∨ id a = appId.
Proof.
  unfold is_duplicate. rewrite orb_true_iff, !bool_decide_eq_true. done.
Qed.

(** The two outcomes of "Check for duplicates". *)
Lemma upsert_match (appId : string) (now : Z) (imgs : list string) (meta : Meta)
    (apps : list App) (k : nat) (old : App) :
  apps !! k = Some old →
  is_duplicate meta appId old = true →
  (∀ j y, (j < k)%nat → apps !! j = Some y → is_duplicate meta appId y = false) →
  upsert appId now imgs meta apps
  = Some (<[k := set_dateAdded (dateAdded old) (newAppData appId now imgs meta)]> apps, true).
Proof.
  intros Hk Hd Hlt. unfold upsert.
  rewrite (findIndex_first _ _ k old Hk Hd Hlt).
  replace (-1 <? Z.of_nat k) with true by (symmetry; apply Z.ltb_lt; lia).
  by rewrite Nat2Z.id, Hk.
Qed.

Lemma upsert_fresh (appId : string) (now : Z) (imgs : list string) (meta : Meta)
    (apps : list App) :
  (∀ a, a ∈ apps → is_duplicate meta appId a = false) →
  upsert appId now imgs meta apps = Some (newAppData appId now imgs meta :: apps, false).
Proof. intros Hall. unfold upsert. by rewrite findIndex_none. Qed.

(** Every store falls under one of the two. *)
Lemma upsert_cases (appId : string) (now : Z) (imgs : list string) (meta : Meta)
    (apps : list App) :
  (∃ k old, apps !! k = Some old ∧ is_duplicate meta appId old = true
            ∧ (∀ j y, (j < k)%nat → apps !! j = Some y → is_duplicate meta appId y = false)
            ∧ upsert appId now imgs meta apps
              = Some (<[k := set_dateAdded (dateAdded old) (newAppData appId now imgs meta)]> apps,
                      true))
  ∨ ((∀ a, a ∈ apps → is_duplicate meta appId a = false)
     ∧ upsert appId now imgs meta apps
       = Some (newAppData appId now imgs meta :: apps, false)).
Proof.
  destruct (findIndex_from_spec (is_duplicate meta appId) 0 apps)
    as [[_ Hall]|(k & x & _ & Hx & Hpx & Hlt)].
  - right. split; [done|]. by apply upsert_fresh.
  - left. exists k, x. repeat split; try done. by apply upsert_match.
Qed.

(** ** The upsert *)

Lemma set_dateAdded_fresh (appId : string) (now d : Z) (imgs : list string) (meta : Meta) :
  set_dateAdded d (newAppData appId now imgs meta)
  = {| id := appId; name := meta_name meta; logo := meta_logo meta;
       sourceUrl := meta_url meta; screenCount := length imgs; screens := imgs;
       dateAdded := d; dateUpdated := now |}.
Proof. reflexivity. Qed.

(** A save that meets no storage failure writes one record: in place of the
    first duplicate, or in front. *)
Lemma saveToStorage_written (href : string) (now : Z) (imgs : list string) (meta : Meta)
    (store : Store) :
  ∃ d upd apps',
    saveToStorage no_faults href now imgs meta store
    = (inr (Success (length imgs) (meta_name meta) upd), Some apps')
    ∧ let a := set_dateAdded d (newAppData (appId_of href meta) now imgs meta) in
      (upd = false ∧ d = now ∧ apps' = a :: default [] store)
      ∨ (upd = true ∧ ∃ k old, default [] store !! k = Some old ∧ d = dateAdded old
                               ∧ apps' = <[k := a]> (default [] store)).
Proof.
  unfold saveToStorage. simpl.
  destruct (upsert_cases (appId_of href meta) now imgs meta (default [] store))
    as [(k & old & Hk & _ & _ & ->)|[_ ->]].
  - exists (dateAdded old), true. eexists. split; [done|]. right. split; [done|]. by exists k, old.
  - exists now, false. eexists. split; [done|]. left. done.
Qed.

(** A save never leaves the store absent, and leaves it untouched when a
    storage call is rejected. *)
Lemma saveToStorage_error_keeps_store (f : Faults) (href : string) (now : Z)
    (imgs : list string) (meta : Meta) (store : Store) (message : string) (store' : Store) :
  saveToStorage f href now imgs meta store = (inl message, store') → store' = store.
Proof.
  unfold saveToStorage. destruct (get_error f); [by intros [= _ <-]|].
  destruct (upsert _ _ _ _ _) as [[apps' upd]|]; [|by intros [= _ <-]].
  destruct (set_error f); [by intros [= _ <-] | done].
Qed.

(** C3. Whatever the store holds: when some entry has the scraped name or
    the derived id, the first such entry is overwritten where it stands by
    the new record, which keeps that entry's [dateAdded] and takes [now] as
    [dateUpdated] (so an entry with the same name and another id is
    replaced, not doubled); when no entry has either, the new record, with
    both dates [now], is put in front.  The result reports [isUpdate] true
    in the first case and false in the second, and [count] is the number of
    captured screens. *)
Theorem C3_upsert_overwrites_first_match_or_prepends
    (href : string) (now : Z) (imgs : list string) (meta : Meta) (store : Store) :
  let apps := default [] store in
  let appId := appId_of href meta in
  let matches := fun a : App => name a = meta_name meta ∨ id a = appId in
  (∀ k old,
      apps !! k = Some old → matches old →
      (∀ j y, (j < k)%nat → apps !! j = Some y → ¬ matches y) →
      saveToStorage no_faults href now imgs meta store
      = (inr (Success (length imgs) (meta_name meta) true),
         Some (<[k := {| id := appId; name := meta_name meta; logo := meta_logo meta;
                         sourceUrl := meta_url meta; screenCount := length imgs;
                         screens := imgs; dateAdded := dateAdded old;
                         dateUpdated := now |}]> apps)))
  ∧ ((∀ a, a ∈ apps → ¬ matches a) →
      saveToStorage no_faults href now imgs meta store
      = (inr (Success (length imgs) (meta_name meta) false),
         Some ({| id := appId; name := meta_name meta; logo := meta_logo meta;
                  sourceUrl := meta_url meta; screenCount := length imgs;
                  screens := imgs; dateAdded := now; dateUpdated := now |} :: apps))).
Proof.
  intros apps appId matches. split.
  - intros k old Hk Hold Hfirst. unfold saveToStorage. simpl.
    fold appId. fold apps.
    rewrite (upsert_match appId now imgs meta apps k old Hk).
    + done.
    + by apply is_duplicate_iff.
    + intros j y Hj Hy. apply not_true_is_false. rewrite is_duplicate_iff.
      by apply (Hfirst j y).
  - intros Hnone. unfold saveToStorage. simpl. fold appId. fold apps.
    rewrite upsert_fresh; [done|].
    intros a Ha. apply not_true_is_false. rewrite is_duplicate_iff. by apply Hnone.
Qed.

(** An entry saved as "Foo" under the id foo-old is overwritten, where it
    stands, by a scan of "Foo" at [.../apps/foo-new]; an absent store gets
    the record as its only element. *)
Example C3_witness :
  saveToStorage no_faults "https://mobbin.com/apps/foo-new" 2000
    ["https://cdn.mobbin.com/a.png"] ex_meta_foo (Some [ex_bar; ex_foo_old])
  = (inr (Success 1 "Foo" true),
     Some [ ex_bar;
            {| id := "foo-new"; name := "Foo"; logo := "https://cdn.mobbin.com/l.png";
               sourceUrl := "https://mobbin.com/apps/foo-new"; screenCount := 1;
               screens := ["https://cdn.mobbin.com/a.png"];
               dateAdded := 7; dateUpdated := 2000 |} ])
  ∧ saveToStorage no_faults "https://mobbin.com/apps/foo-new" 2000
      ["https://cdn.mobbin.com/a.png"] ex_meta_foo None
    = (inr (Success 1 "Foo" false),
       Some [ {| id := "foo-new"; name := "Foo"; logo := "https://cdn.mobbin.com/l.png";
                 sourceUrl := "https://mobbin.com/apps/foo-new"; screenCount := 1;
                 screens := ["https://cdn.mobbin.com/a.png"];
                 dateAdded := 2000; dateUpdated := 2000 |} ]).
Proof.
  split.
  - apply (proj1 (C3_upsert_overwrites_first_match_or_prepends
                    "https://mobbin.com/apps/foo-new" 2000 ["https://cdn.mobbin.com/a.png"]
                    ex_meta_foo (Some [ex_bar; ex_foo_old])) 1%nat ex_foo_old).
    + reflexivity.
    + left. reflexivity.
    + intros [|j] y Hj Hy; [|lia]. injection Hy as <-. simpl. intros [H|H]; discriminate H.
  - apply (proj2 (C3_upsert_overwrites_first_match_or_prepends
                    "https://mobbin.com/apps/foo-new" 2000 ["https://cdn.mobbin.com/a.png"]
                    ex_meta_foo None)).
    intros a Ha. inversion Ha.
Defined.

(** ** The store invariant *)

Lemma NoDup_insert_unique {A} (l : list A) (k : nat) (x : A) :
  NoDup l → (∀ j, l !! j = Some x → j = k) → NoDup (<[k := x]> l).
Proof.
  rewrite !NoDup_alt. intros Hnd Hx i j y Hi Hj.
  apply list_lookup_insert_Some in Hi as [(<- & <- & _)|[Hki Hi]];
    apply list_lookup_insert_Some in Hj as [(<- & Hxy & _)|[Hkj Hj]].
  - done.
  - by apply Hx in Hj.
  - subst y. by apply Hx in Hi.
  - by eapply Hnd.
Qed.

Lemma NoDup_fmap_lookup {A B} (f : A → B) (l : list A) (j k : nat) (x y : A) :
  NoDup (f <$> l) → l !! j = Some x → l !! k = Some y → f x = f y → j = k.
Proof.
  intros Hnd Hj Hk Hf. apply (proj1 (NoDup_alt _) Hnd j k (f x)).
  - by rewrite list_lookup_fmap, Hj.
  - by rewrite list_lookup_fmap, Hk, Hf.
Qed.

Lemma upsert_keeps_keys_unique (appId : string) (now : Z) (imgs : list string) (meta : Meta)
    (apps apps' : list App) (upd : bool) :
  at_most_one_per_key apps →
  (∀ a b, a ∈ apps → b ∈ apps → name a = meta_name meta → id b = appId → a = b) →
  upsert appId now imgs meta apps = Some (apps', upd) →
  at_most_one_per_key apps'.
Proof.
  intros [Hn Hi] Hone.
  destruct (upsert_cases appId now imgs meta apps)
    as [(k & old & Hk & Hold & _ & ->)|[Hnone ->]]; intros [= <- _].
  - apply is_duplicate_iff in Hold.
    assert (Hsame : ∀ j b, apps !! j = Some b →
                      name b = meta_name meta ∨ id b = appId → j = k).
    { intros j b Hj Hb.
      assert (Hin_b : b ∈ apps) by (by eapply list_elem_of_lookup_2).
      assert (Hin_o : old ∈ apps) by (by eapply list_elem_of_lookup_2).
      destruct Hb as [Hb|Hb], Hold as [Ho|Ho].
      - apply (NoDup_fmap_lookup name apps j k b old); congruence.
      - apply (NoDup_fmap_lookup name apps j k b old); try done.
        by rewrite (Hone b old).
      - apply (NoDup_fmap_lookup name apps j k b old); try done.
        by rewrite (Hone old b).
      - apply (NoDup_fmap_lookup id apps j k b old); congruence. }
    split; rewrite list_fmap_insert; apply NoDup_insert_unique; try done.
    + intros j Hj. rewrite list_lookup_fmap in Hj.
      destruct (apps !! j) as [b|] eqn:Hb; [|done]. injection Hj as Hj.
      apply (Hsame j b Hb). by left.
    + intros j Hj. rewrite list_lookup_fmap in Hj.
      destruct (apps !! j) as [b|] eqn:Hb; [|done]. injection Hj as Hj.
      apply (Hsame j b Hb). by right.
  - split; rewrite fmap_cons; (apply NoDup_cons; split; [|done]).
    + intros (a & Ha & Hin)%list_elem_of_fmap.
      specialize (Hnone a Hin). apply not_true_iff_false in Hnone.
      apply Hnone, is_duplicate_iff. left. exact (eq_sym Ha).
    + intros (a & Ha & Hin)%list_elem_of_fmap.
      specialize (Hnone a Hin). apply not_true_iff_false in Hnone.
      apply Hnone, is_duplicate_iff. right. exact (eq_sym Ha).
Qed.

(** C4, as the code has it.  The upsert keeps "no two entries share a name,
    no two share an id" whenever the store holds no two different entries of
    which one has the scraped name and the other the derived id; a rejected
    storage call leaves the store as it was. *)
Theorem C4_upsert_keeps_keys_unique_when_one_entry_matches
    (f : Faults) (href : string) (now : Z) (imgs : list string) (meta : Meta)
    (store store' : Store) (r : string + ScrapeResult) :
  at_most_one_per_key (default [] store) →
  (∀ a b, a ∈ default [] store → b ∈ default [] store →
          name a = meta_name meta → id b = appId_of href meta → a = b) →
  saveToStorage f href now imgs meta store = (r, store') →
  at_most_one_per_key (default [] store').
Proof.
  intros Hinv Hone. unfold saveToStorage.
  destruct (get_error f); [by intros [= _ <-]|].
  destruct (upsert _ _ _ _ _) as [[apps' upd]|] eqn:Hup; [|by intros [= _ <-]].
  destruct (set_error f); intros [= _ <-]; [done|].
  simpl. by eapply upsert_keeps_keys_unique.
Qed.

(** The store [Bar; Foo(foo-old)] keeps the invariant when "Foo" is scanned
    again at [.../apps/foo-new]. *)
Example C4_witness :
  at_most_one_per_key
    (default [] (snd (saveToStorage no_faults "https://mobbin.com/apps/foo-new" 2000
                        ["https://cdn.mobbin.com/a.png"] ex_meta_foo
                        (Some [ex_bar; ex_foo_old])))).
Proof.
  eapply (C4_upsert_keeps_keys_unique_when_one_entry_matches no_faults
            "https://mobbin.com/apps/foo-new" 2000 ["https://cdn.mobbin.com/a.png"]
            ex_meta_foo (Some [ex_bar; ex_foo_old])).
  - split; simpl; repeat constructor; set_solver.
  - simpl. intros a b Ha Hb Hna Hib.
    apply elem_of_cons in Hb as [->|Hb]; [discriminate Hib|].
    apply list_elem_of_singleton in Hb as ->. discriminate Hib.
  - apply surjective_pairing.
Defined.

(** C4 as stated fails: the store [Foo(foo-old); Bar(bar)] has unique names
    and unique ids; a scan of a page titled "Foo" at [.../apps/bar] overwrites
    the first entry (same name) and leaves two entries with the id bar. *)
Example C4_counterexample :
  at_most_one_per_key [ex_foo_old; ex_bar]
  ∧ snd (saveToStorage no_faults "https://mobbin.com/apps/bar" 2000
           ["https://cdn.mobbin.com/a.png"] ex_meta_foo_at_bar (Some [ex_foo_old; ex_bar]))
    = Some [ {| id := "bar"; name := "Foo"; logo := "https://cdn.mobbin.com/l.png";
                sourceUrl := "https://mobbin.com/apps/bar"; screenCount := 1;
                screens := ["https://cdn.mobbin.com/a.png"];
                dateAdded := 7; dateUpdated := 2000 |};
             ex_bar ]
  ∧ ¬ at_most_one_per_key
        (default [] (snd (saveToStorage no_faults "https://mobbin.com/apps/bar" 2000
                            ["https://cdn.mobbin.com/a.png"] ex_meta_foo_at_bar
                            (Some [ex_foo_old; ex_bar])))).
Proof.
  split; [|split].
  - split; simpl; repeat constructor; set_solver.
  - reflexivity.
  - intros [_ Hid]. simpl in Hid. apply NoDup_cons in Hid as [Hid _].
    apply Hid. left.
Qed.

(** ** Identity resolution *)

Lemma or_else_nonempty (x y : string) : x ≠ "" → JS.or_else x y = x.
Proof. intros Hx. unfold JS.or_else. by destruct (decide (x = "")). Qed.

(** C8, as the code has it.  The record a save writes has as [id] the text
    behind the last slash of [window.location.href], query and fragment
    included, when that text is not empty; when the address ends in a slash
    the [id] is [meta.name] with every run of white space replaced by one
    hyphen and then lower-cased, whatever path segments stand before that
    slash.  (An address without any slash is its own last piece.) *)
Theorem C8_id_is_text_behind_last_slash
    (href : string) (now : Z) (imgs : list string) (meta : Meta) (store : Store) :
  ∃ a upd apps',
    saveToStorage no_faults href now imgs meta store
    = (inr (Success (length imgs) (meta_name meta) upd), Some apps')
    ∧ (apps' = a :: default [] store
       ∨ ∃ k, (k < length (default [] store))%nat ∧ apps' = <[k := a]> (default [] store))
    ∧ name a = meta_name meta ∧ screens a = imgs
    ∧ (∀ pre tail, href = pre +:+ String "/" tail → JS.includes "/" tail = false →
                   tail ≠ "" → id a = tail)
    ∧ (∀ pre, href = pre +:+ "/" →
              id a = JS.toLowerCase (JS.replace_spaces false (meta_name meta)))
    ∧ (JS.includes "/" href = false → href ≠ "" → id a = href).
Proof.
  destruct (saveToStorage_written href now imgs meta store) as (d & upd & apps' & Hsave & Hw).
  exists (set_dateAdded d (newAppData (appId_of href meta) now imgs meta)), upd, apps'.
  split; [done|]. split; [|split; [done|split; [done|]]].
  - destruct Hw as [(_ & _ & ->)|(_ & k & old & Hk & _ & ->)]; [by left|].
    right. exists k. split; [|done]. by eapply lookup_lt_Some.
  - simpl. unfold appId_of. split; [|split].
    + intros pre tail -> Htail Hne. by rewrite last_part_split, or_else_nonempty.
    + intros pre ->. by rewrite last_part_split.
    + intros Hno Hne. by rewrite last_part_split_no_sep, or_else_nonempty.
Qed.

(** A scan at [.../apps/foo-new] is saved under the id foo-new. *)
Example C8_witness :
  ∃ a, snd (saveToStorage no_faults "https://mobbin.com/apps/foo-new" 2000
              ["https://cdn.mobbin.com/a.png"] ex_meta_foo None) = Some [a]
       ∧ id a = "foo-new".
Proof.
  destruct (C8_id_is_text_behind_last_slash "https://mobbin.com/apps/foo-new" 2000
              ["https://cdn.mobbin.com/a.png"] ex_meta_foo None)
    as (a & upd & apps' & Hsave & Hw & _ & _ & Hid & _).
  exists a. split.
  - rewrite Hsave. simpl. destruct Hw as [->|(k & Hk & _)]; [done|]. simpl in Hk. lia.
  - apply (Hid "https://mobbin.com/apps"); [reflexivity | reflexivity | discriminate].
Defined.

(** C8 as stated fails: the address [https://mobbin.com/apps/airbnb/] has the
    non-empty path segment airbnb, and the record is saved under the slug of
    the page's name. *)
Example C8_counterexample :
  last_nonempty_path_segment "https://mobbin.com/apps/airbnb/" = Some "airbnb"
  ∧ ∃ a, snd (saveToStorage no_faults "https://mobbin.com/apps/airbnb/" 2000
                ["https://cdn.mobbin.com/a.png"] ex_meta_airbnb None) = Some [a]
         ∧ id a = "air-bnb"
         ∧ id a ≠ spec_id "https://mobbin.com/apps/airbnb/" ex_meta_airbnb.
Proof.
  split; [reflexivity|]. eexists. split; [reflexivity|]. split; [reflexivity|].
  simpl. discriminate.
Qed.

(** ** Running the loop in two parts *)

Section ScanFacts.
Context {host : Host}.

(** A loop that is still running after [pre] goes on from there. *)
Lemma scrollLoop_app (vh : Z) (pre rest : list IterObs) (st st1 : Locals) :
  exit (scrollLoop vh pre st) = Running st1 →
  exit (scrollLoop vh (pre ++ rest) st) = exit (scrollLoop vh rest st1)
  ∧ effects (scrollLoop vh (pre ++ rest) st)
    = effects (scrollLoop vh pre st) ++ effects (scrollLoop vh rest st1)
  ∧ rounds (scrollLoop vh (pre ++ rest) st)
    = (length pre + rounds (scrollLoop vh rest st1))%nat.
Proof.
  revert st. induction pre as [|o pre IH]; intros st; simpl.
  - by intros [= ->].
  - destruct (abort_flag o); [done|].
    destruct (iteration vh o st) as [[st2|st2|msg] eff]; simpl; [|done|done].
    intros Hrun. destruct (IH st2 Hrun) as (-> & -> & ->).
    by rewrite app_assoc.
Qed.

Lemma scrollLoop_running_rounds (vh : Z) (pre : list IterObs) (st st1 : Locals) :
  exit (scrollLoop vh pre st) = Running st1 → rounds (scrollLoop vh pre st) = length pre.
Proof.
  revert st. induction pre as [|o pre IH]; intros st; simpl; [done|].
  destruct (abort_flag o); [done|].
  destruct (iteration vh o st) as [[st2|st2|msg] eff]; simpl; [|done|done].
  intros Hrun. by rewrite (IH st2 Hrun).
Qed.

(** While the loop runs, the array only grows at its end. *)
Lemma scrollLoop_running_prefix (vh : Z) (pre rest : list IterObs) (st st1 st' : Locals) :
  in_sync st →
  exit (scrollLoop vh pre st) = Running st1 →
  exit_state (exit (scrollLoop vh (pre ++ rest) st)) = Some st' →
  capturedImages st1 `prefix_of` capturedImages st'.
Proof.
  intros Hs Hpre Hall.
  destruct (scrollLoop_captured vh pre st st1 Hs) as [_ Hs1]; [by rewrite Hpre|].
  destruct (scrollLoop_app vh pre rest st st1 Hpre) as (Hex & _ & _).
  rewrite Hex in Hall.
  destruct (scrollLoop_captured vh rest st1 st' Hs1 Hall) as [-> _].
  by eexists.
Qed.

Lemma initial_locals_in_sync (p : Page) : in_sync (initial_locals p).
Proof. split; simpl; [constructor | set_solver]. Qed.

(** ** What the scan does once the loop is left *)

Lemma performSmartScrape_cancelled (p : Page) (store : Store) (m : Meta) (st : Locals) :
  getPageMeta p = inr m → meta_name m ≠ "" →
  exit (scrollLoop (viewportHeight p) (observations p) (initial_locals p)) = Cancelled st →
  performSmartScrape p store
  = Some {| result := Aborted "Scrape cancelled by user"; store_after := store;
            trace := [ScrollTo 0 0; Sleep CONFIG.INITIAL_DELAY]
                     ++ effects (scrollLoop (viewportHeight p) (observations p)
                                   (initial_locals p)) |}.
Proof.
  intros Hm Hn Hex. unfold performSmartScrape. rewrite Hm.
  destruct (decide (meta_name m = "")); [done|]. by rewrite Hex.
Qed.

Lemma performSmartScrape_failed (p : Page) (store : Store) (m : Meta) (message : string) :
  getPageMeta p = inr m → meta_name m ≠ "" →
  exit (scrollLoop (viewportHeight p) (observations p) (initial_locals p)) = Failed message →
  performSmartScrape p store
  = Some (scraping_error message store
            ([ScrollTo 0 0; Sleep CONFIG.INITIAL_DELAY]
             ++ effects (scrollLoop (viewportHeight p) (observations p) (initial_locals p)))).
Proof.
  intros Hm Hn Hex. unfold performSmartScrape. rewrite Hm.
  destruct (decide (meta_name m = "")); [done|]. by rewrite Hex.
Qed.

Lemma performSmartScrape_converged (p : Page) (store : Store) (m : Meta) (st : Locals) :
  getPageMeta p = inr m → meta_name m ≠ "" →
  exit (scrollLoop (viewportHeight p) (observations p) (initial_locals p)) = Converged st →
  performSmartScrape p store
  = Some (finish p m st store
            ([ScrollTo 0 0; Sleep CONFIG.INITIAL_DELAY]
             ++ effects (scrollLoop (viewportHeight p) (observations p) (initial_locals p)))).
Proof.
  intros Hm Hn Hex. unfold performSmartScrape. rewrite Hm.
  destruct (decide (meta_name m = "")); [done|]. by rewrite Hex.
Qed.

(** A scan that reports success left its loop by [break] and saved what the
    array held. *)
Lemma performSmartScrape_success (p : Page) (store : Store) (out : Outcome)
    (n : nat) (nm : string) (upd : bool) :
  performSmartScrape p store = Some out →
  result out = Success n nm upd →
  ∃ m st,
    getPageMeta p = inr m
    ∧ exit (scrollLoop (viewportHeight p) (observations p) (initial_locals p)) = Converged st
    ∧ capturedImages st ≠ []
    ∧ saveToStorage (faults p) (href p) (now p) (capturedImages st) m store
      = (inr (Success n nm upd), store_after out).
Proof.
  unfold performSmartScrape.
  destruct (getPageMeta p) as [e|m]; [by intros [= <-]|].
  destruct (decide (meta_name m = "")); [by intros [= <-]|].
  destruct (exit _) as [st|st|msg|st] eqn:Hex; [by intros [= <-] | | by intros [= <-] | done].
  unfold finish.
  destruct (capturedImages st) as [|u l] eqn:Hc; [by intros [= <-]|]. simpl.
  destruct (saveToStorage _ _ _ _ _ _) as [[e|r] store'] eqn:Hsave; intros [= <-]; [done|].
  simpl. intros ->. exists m, st. by rewrite Hc.
Qed.

Lemma saveToStorage_success_no_faults (f : Faults) (href : string) (now : Z)
    (imgs : list string) (meta : Meta) (store store' : Store) (r : ScrapeResult) :
  saveToStorage f href now imgs meta store = (inr r, store') →
  saveToStorage no_faults href now imgs meta store = (inr r, store').
Proof.
  unfold saveToStorage. simpl. destruct (get_error f); [done|].
  destruct (upsert _ _ _ _ _) as [[apps' upd]|]; [|done].
  by destruct (set_error f).
Qed.

End ScanFacts.

(** ** Cancellation and empty results *)

(** C6. When the loop is left by [break] with an empty array, the scan
    answers with the error "No screens found. ..." and the store is what it
    was. *)
Theorem C6_no_screens_is_an_error `{Host}
    (p : Page) (store : Store) (m : Meta) (st : Locals) :
  getPageMeta p = inr m → meta_name m ≠ "" →
  exit (scrollLoop (viewportHeight p) (observations p) (initial_locals p)) = Converged st →
  capturedImages st = [] →
  ∃ eff, performSmartScrape p store
         = Some {| result := Error "No screens found. This might not be a valid Mobbin app page.";
                   store_after := store; trace := eff |}.
Proof.
  intros Hm Hn Hex Hc. eexists.
  rewrite (performSmartScrape_converged p store m st Hm Hn Hex).
  unfold finish. rewrite Hc. reflexivity.
Qed.

(** A page without screen images, already at its bottom. *)
Example C6_witness :
  ∃ eff, performSmartScrape (host := Whatwg.host) (ex_page [ex_obs [] 1200; ex_obs [] 1200])
           (Some [ex_bar])
         = Some {| result := Error "No screens found. This might not be a valid Mobbin app page.";
                   store_after := Some [ex_bar]; trace := eff |}.
Proof.
  eapply (C6_no_screens_is_an_error (H := Whatwg.host)
            (ex_page [ex_obs [] 1200; ex_obs [] 1200]) (Some [ex_bar]) ex_meta_foo).
  - reflexivity.
  - discriminate.
  - reflexivity.
  - reflexivity.
Defined.

(** ** Harvest failures *)

Section RetryFacts.
Context {host : Host}.

Lemma iteration_retryCount (vh : Z) (o : IterObs) (st st' : Locals) (eff : list Effect) :
  iteration vh o st = (Continue st', eff) →
  retryCount st' = (retryCount st + if harvest_failed o then 1 else 0)%nat
  ∧ (retryCount st' < CONFIG.MAX_RETRY_ATTEMPTS ∨ retryCount st' = retryCount st)%nat.
Proof.
  unfold iteration, harvest_failed, scrollDown.
  destruct (harvest o) as [msg|imgs]; cbv beta iota zeta.
  - destruct (Nat.leb_spec CONFIG.MAX_RETRY_ATTEMPTS (S (retryCount st))); intros [= <- _].
    simpl. split; lia.
  - destruct (foldl_collect_frame (extractImagesFromDOM imgs) st) as (Hr & _).
    destruct (Z.leb _ _); [destruct (Z.eqb _ _); [destruct (Nat.leb _ _)|]|];
      intros [= <- _]; simpl; lia.
Qed.

(** [retryCount] counts the failed harvests of the whole scan: nothing
    resets it. *)
Lemma scrollLoop_running_retryCount (vh : Z) (pre : list IterObs) (st st1 : Locals) :
  (retryCount st < CONFIG.MAX_RETRY_ATTEMPTS)%nat →
  exit (scrollLoop vh pre st) = Running st1 →
  retryCount st1 = (retryCount st + failures pre)%nat
  ∧ (retryCount st1 < CONFIG.MAX_RETRY_ATTEMPTS)%nat.
Proof.
  revert st. induction pre as [|o pre IH]; intros st Hlt; simpl.
  - intros [= <-]. unfold failures. simpl. lia.
  - destruct (abort_flag o); [done|].
    destruct (iteration vh o st) as [[st2|st2|msg] eff] eqn:Hit; simpl; [|done|done].
    intros Hrun. destruct (iteration_retryCount vh o st st2 eff Hit) as [Hr Hb].
    destruct (IH st2) as [-> Hlt']; [lia | done |]. split; [|done].
    unfold failures. rewrite filter_cons. destruct (harvest_failed o); simpl; lia.
Qed.

End RetryFacts.

(** C7, as the code has it.  A harvest that throws is caught inside the loop
    and counted in [retryCount], which counts the failed harvests of the
    whole scan and is never reset.  After the first and after the second
    failure the loop waits twice the settle delay, the same 1000 ms both
    times, and goes on with nothing else changed; the third failure,
    whether or not it follows the others directly, ends the scan with the
    error "Scraping failed after 3 retries: ..." and the store is what it
    was. *)
Theorem C7_third_failed_harvest_is_fatal `{Host}
    (p : Page) (store : Store) (m : Meta)
    (pre : list IterObs) (o : IterObs) (rest : list IterObs) (st : Locals) (message : string) :
  getPageMeta p = inr m → meta_name m ≠ "" →
  observations p = pre ++ o :: rest →
  exit (scrollLoop (viewportHeight p) pre (initial_locals p)) = Running st →
  abort_flag o = false → harvest o = inl message →
  retryCount st = failures pre
  ∧ (failures pre ≤ 2)%nat
  ∧ ((failures pre < 2)%nat →
       exit (scrollLoop (viewportHeight p) (pre ++ [o]) (initial_locals p))
       = Running (set_retryCount (S (failures pre)) st)
       ∧ effects (scrollLoop (viewportHeight p) (pre ++ [o]) (initial_locals p))
         = effects (scrollLoop (viewportHeight p) pre (initial_locals p))
           ++ [Sleep (2 * CONFIG.SCROLL_DELAY)])
  ∧ (failures pre = 2%nat →
       ∃ eff, performSmartScrape p store
              = Some {| result := Error ("Scraping failed after 3 retries: " +:+ message);
                        store_after := store; trace := eff |}).
Proof.
  intros Hm Hn Hobs Hpre Hflag Hharvest.
  destruct (scrollLoop_running_retryCount (viewportHeight p) pre (initial_locals p) st)
    as [Hr Hlt]; [simpl; unfold CONFIG.MAX_RETRY_ATTEMPTS; lia | done |].
  simpl in Hr. unfold CONFIG.MAX_RETRY_ATTEMPTS in Hlt.
  split; [done|]. split; [lia|]. split.
  - intros Hf.
    destruct (scrollLoop_app (viewportHeight p) pre [o] _ st Hpre) as (-> & -> & _).
    simpl. rewrite Hflag. unfold iteration. rewrite Hharvest. cbv beta iota zeta.
    destruct (Nat.leb_spec CONFIG.MAX_RETRY_ATTEMPTS (S (retryCount st))) as [Hge|_].
    { unfold CONFIG.MAX_RETRY_ATTEMPTS in Hge. lia. }
    simpl. by rewrite Hr.
  - intros Hf. eexists.
    rewrite (performSmartScrape_failed p store m
               ("Scraping failed after 3 retries: " +:+ message) Hm Hn).
    + unfold scraping_error. rewrite or_else_nonempty by discriminate. reflexivity.
    + rewrite Hobs.
      destruct (scrollLoop_app (viewportHeight p) pre (o :: rest) _ st Hpre) as (-> & _ & _).
      simpl. rewrite Hflag. unfold iteration. rewrite Hharvest. cbv beta iota zeta.
      rewrite Hr, Hf. reflexivity.
Qed.

(** A first failed harvest is absorbed with a wait of 1000 ms; the third of a
    scan ends it, though a harvest succeeded in between. *)
Example C7_witness :
  (∃ st', exit (scrollLoop (host := Whatwg.host) 800 ([ex_top] ++ [ex_throw])
                  (initial_locals (ex_page [ex_top; ex_throw; ex_bottom; ex_bottom])))
          = Running st'
          ∧ retryCount st' = 1%nat
          ∧ effects (scrollLoop (host := Whatwg.host) 800 ([ex_top] ++ [ex_throw])
                       (initial_locals (ex_page [ex_top; ex_throw; ex_bottom; ex_bottom])))
            = effects (scrollLoop (host := Whatwg.host) 800 [ex_top]
                         (initial_locals (ex_page [ex_top; ex_throw; ex_bottom; ex_bottom])))
              ++ [Sleep 1000])
  ∧ ∃ eff, performSmartScrape (host := Whatwg.host)
             (ex_page [ex_throw; ex_top; ex_throw; ex_throw; ex_bottom]) (Some [ex_bar])
           = Some {| result := Error "Scraping failed after 3 retries: boom";
                     store_after := Some [ex_bar]; trace := eff |}.
Proof.
  split.
  - destruct (C7_third_failed_harvest_is_fatal (H := Whatwg.host)
                (ex_page [ex_top; ex_throw; ex_bottom; ex_bottom]) None ex_meta_foo
                [ex_top] ex_throw [ex_bottom; ex_bottom] _ "boom"
                eq_refl ltac:(discriminate) eq_refl eq_refl eq_refl eq_refl)
      as (Hcount & _ & Hretry & _).
    destruct Hretry as [Hex Heff]; [vm_compute; lia|].
    eexists. split; [exact Hex|]. split; [reflexivity | exact Heff].
  - refine (proj2 (proj2 (proj2
      (C7_third_failed_harvest_is_fatal (H := Whatwg.host)
         (ex_page [ex_throw; ex_top; ex_throw; ex_throw; ex_bottom]) (Some [ex_bar]) ex_meta_foo
         [ex_throw; ex_top; ex_throw] ex_throw [ex_bottom] _ "boom"
         eq_refl _ eq_refl eq_refl eq_refl eq_refl))) _).
    + discriminate.
    + reflexivity.
Defined.

(** C7 as stated fails on "increasing backoff": the wait after the second
    failed harvest is the wait after the first, 1000 ms. *)
Example C7_counterexample :
  ∃ st1 st2 w1 w2,
    iteration (host := Whatwg.host) 800 ex_throw
      (initial_locals (ex_page [ex_throw; ex_throw])) = (Continue st1, [Sleep w1])
    ∧ iteration (host := Whatwg.host) 800 ex_throw st1 = (Continue st2, [Sleep w2])
    ∧ w1 = 1000 ∧ w2 = 1000 ∧ ¬ (w1 < w2).
Proof.
  do 4 eexists. split; [reflexivity|]. split; [reflexivity|].
  split; [reflexivity|]. split; [reflexivity|]. lia.
Qed.

(** ** Convergence *)

Section ConvergenceFacts.
Context {host : Host}.






End ConvergenceFacts.




(** ** What is saved *)

Lemma extractImagesFromDOM_no_query (rawImages : list Img) (u : string) :
  u ∈ extractImagesFromDOM rawImages → JS.includes "?" u = false.
Proof.
  unfold extractImagesFromDOM.
  assert (Hgen : ∀ acc : list string,
            (∀ v, v ∈ acc → JS.includes "?" v = false) →
            ∀ v, v ∈ foldl (fun urls img =>
                              if closest_li img then urls
                              else if bool_decide (src img ≠ "") && JS.includes "http" (src img)
                                   then urls ++ [JS.split_head "?"%char (src img)]
                                   else urls) acc rawImages →
                 JS.includes "?" v = false).
  { induction rawImages as [|img imgs IH]; intros acc Hacc v; simpl; [by apply Hacc|].
    apply IH. destruct (closest_li img); [done|].
    destruct (_ && _); [|done].
    intros w [Hw| ->%list_elem_of_singleton]%elem_of_app; [by apply Hacc|].
    apply split_head_no_sep. }
  apply Hgen. intros v Hv. inversion Hv.
Qed.

Lemma batches_no_query (obs : list IterObs) (u : string) :
  u ∈ concat (batches obs) → JS.includes "?" u = false.
Proof.
  induction obs as [|o obs IH]; simpl; [by intros Hu; inversion Hu|].
  intros [Hu|Hu]%elem_of_app; [|by apply IH].
  unfold batch_of in Hu. destruct (harvest o); [inversion Hu|].
  by eapply extractImagesFromDOM_no_query.
Qed.

Section SavedFacts.
Context {host : Host}.

Lemma isValidImageUrl_protocol (u : string) :
  isValidImageUrl u = true →
  URL_protocol u = Some "http:" ∨ URL_protocol u = Some "https:".
Proof.
  unfold isValidImageUrl. destruct (decide (u = "")); [done|].
  destruct (URL_protocol u) as [proto|]; [|done].
  intros [->%bool_decide_eq_true| ->%bool_decide_eq_true]%orb_true_iff; auto.
Qed.

(** A successful scan wrote one record whose [screens] are the first
    occurrences of the valid URLs of the batches it harvested. *)
Lemma performSmartScrape_saved (p : Page) (store : Store) (out : Outcome)
    (n : nat) (nm : string) (upd : bool) :
  performSmartScrape p store = Some out →
  result out = Success n nm upd →
  let run := scrollLoop (viewportHeight p) (observations p) (initial_locals p) in
  let urls :=
    dedupe (filter (fun u => isValidImageUrl u)
              (concat (batches (take (rounds run) (observations p))))) in
  ∃ st a apps',
    exit run = Converged st ∧ capturedImages st = urls ∧ n = length urls
    ∧ store_after out = Some apps'
    ∧ screens a = urls ∧ screenCount a = length urls
    ∧ (apps' = a :: default [] store
       ∨ ∃ k, (k < length (default [] store))%nat ∧ apps' = <[k := a]> (default [] store)).
Proof.
  intros Hscan Hres run urls.
  destruct (performSmartScrape_success p store out n nm upd Hscan Hres)
    as (m & st & Hm & Hex & Hne & Hsave).
  destruct (scrollLoop_captured (viewportHeight p) (observations p) (initial_locals p) st)
    as [Hc _]; [apply initial_locals_in_sync | by rewrite Hex |].
  simpl in Hc. rewrite accepted_nil_l in Hc. fold run in Hc. fold urls in Hc.
  apply saveToStorage_success_no_faults in Hsave.
  destruct (saveToStorage_written (href p) (now p) (capturedImages st) m store)
    as (d & upd' & apps' & Hsave' & Hw).
  rewrite Hsave in Hsave'. injection Hsave' as Hn _ _ Hstore.
  exists st, (set_dateAdded d (newAppData (appId_of (href p) m) (now p) (capturedImages st) m)),
    apps'.
  rewrite <- Hc. repeat split; try done.
  destruct Hw as [(_ & _ & ->)|(_ & k & old & Hk & _ & ->)]; [by left|].
  right. exists k. split; [|done]. by eapply lookup_lt_Some.
Qed.

End SavedFacts.

(** C1, as the code has it.  The [screens] a successful scan saves are the
    first occurrences, in order, of the URLs that pass [isValidImageUrl]
    among the concatenated batches of the passes the loop made: each such URL
    once, and [count] and [screenCount] are their number.  The array only
    grows at its end, so what it held after any number of passes is a prefix
    of what is saved, and meeting a URL again moves nothing. *)
Theorem C1_screens_are_first_occurrences_of_valid_urls `{Host}
    (p : Page) (store : Store) (out : Outcome) (n : nat) (nm : string) (upd : bool) :
  performSmartScrape p store = Some out →
  result out = Success n nm upd →
  let run := scrollLoop (viewportHeight p) (observations p) (initial_locals p) in
  let urls :=
    dedupe_preserving_first_occurrence
      (filter (fun u => isValidImageUrl u)
         (concat (batches (take (rounds run) (observations p))))) in
  NoDup urls
  ∧ n = length urls
  ∧ (∃ a apps',
        store_after out = Some apps' ∧ screens a = urls ∧ screenCount a = length urls
        ∧ (apps' = a :: default [] store
           ∨ ∃ k, (k < length (default [] store))%nat ∧ apps' = <[k := a]> (default [] store)))
  ∧ (∀ k st_k,
        exit (scrollLoop (viewportHeight p) (take k (observations p)) (initial_locals p))
        = Running st_k →
        capturedImages st_k `prefix_of` urls).
Proof.
  intros Hscan Hres run urls.
  destruct (performSmartScrape_saved p store out n nm upd Hscan Hres)
    as (st & a & apps' & Hex & Hc & Hn & Hstore & Hs & Hsc & Hw).
  fold run in Hex, Hc, Hn, Hs, Hsc. fold urls in Hc, Hn, Hs, Hsc.
  split; [apply dedupe_NoDup|]. split; [done|]. split; [by exists a, apps'|].
  intros k st_k Hk. rewrite <- Hc.
  apply (scrollLoop_running_prefix (viewportHeight p) (take k (observations p))
           (drop k (observations p)) (initial_locals p) st_k st).
  - apply initial_locals_in_sync.
  - done.
  - rewrite take_drop. fold run. by rewrite Hex.
Qed.

(** The page of the example: a, b and c are saved in the order they came
    into view, though b and c were harvested several times. *)
Example C1_witness :
  ∃ out a,
    performSmartScrape (host := Whatwg.host)
      (ex_page [ex_top; ex_middle; ex_bottom; ex_bottom]) None = Some out
    ∧ store_after out = Some [a]
    ∧ screens a = ["https://cdn.mobbin.com/a.png"; "https://cdn.mobbin.com/b.png";
                   "https://cdn.mobbin.com/c.png"].
Proof.
  assert (Hscan : performSmartScrape (host := Whatwg.host)
                    (ex_page [ex_top; ex_middle; ex_bottom; ex_bottom]) None
                  = Some ex_outcome) by (vm_compute; reflexivity).
  destruct (C1_screens_are_first_occurrences_of_valid_urls (H := Whatwg.host)
              (ex_page [ex_top; ex_middle; ex_bottom; ex_bottom]) None ex_outcome
              3 "Foo" false Hscan eq_refl)
    as (_ & _ & (a & apps' & Hstore & Hs & _ & Hw) & _).
  exists ex_outcome, a. split; [exact Hscan|]. split.
  - rewrite Hstore. destruct Hw as [->|(k & Hk & _)]; [done|]. simpl in Hk. lia.
  - vm_compute in Hs. exact Hs.
Defined.

(** C1 as stated fails: the first image of the only batch has a [blob:]
    address, which [extractImagesFromDOM] harvests (it contains "http") and
    [isValidImageUrl] refuses; the saved [screens] lack it. *)
Example C1_counterexample :
  performSmartScrape (host := Whatwg.host) (ex_page [ex_blob; ex_blob]) None
  = Some ex_blob_outcome
  ∧ result ex_blob_outcome = Success 1 "Foo" false
  ∧ dedupe_preserving_first_occurrence (concat (batches [ex_blob; ex_blob]))
    = ["blob:https://mobbin.com/3f1c"; "https://cdn.mobbin.com/a.png"]
  ∧ ∃ a, store_after ex_blob_outcome = Some [a]
         ∧ screens a = ["https://cdn.mobbin.com/a.png"]
         ∧ screens a ≠ dedupe_preserving_first_occurrence (concat (batches [ex_blob; ex_blob])).
Proof.
  split; [vm_compute; reflexivity|]. split; [reflexivity|].
  split; [vm_compute; reflexivity|].
  eexists. split; [reflexivity|]. split; [reflexivity|]. vm_compute. discriminate.
Qed.

(** C9, as the code has it.  Every URL the loop appends to the array, and so
    every URL in the [screens] a successful scan saves, is what stood before
    the first question mark of an image's [src], so it contains no question
    mark, and it parses as an absolute URL whose protocol is [http:] or
    [https:].  A fragment is not removed. *)
Theorem C9_saved_urls_have_no_query_and_are_http `{Host} (p : Page) :
  let ok := fun u : string =>
    JS.includes "?" u = false
    ∧ (URL_protocol u = Some "http:" ∨ URL_protocol u = Some "https:") in
  (∀ obs st,
      exit_state (exit (scrollLoop (viewportHeight p) obs (initial_locals p))) = Some st →
      ∀ u, u ∈ capturedImages st → ok u)
  ∧ (∀ store out n nm upd,
        performSmartScrape p store = Some out →
        result out = Success n nm upd →
        ∃ a apps',
          store_after out = Some apps'
          ∧ (apps' = a :: default [] store
             ∨ ∃ k, (k < length (default [] store))%nat
                    ∧ apps' = <[k := a]> (default [] store))
          ∧ length (screens a) = n
          ∧ ∀ u, u ∈ screens a → ok u).
Proof.
  intros ok.
  assert (Hok : ∀ l u,
            u ∈ dedupe (filter (fun u => isValidImageUrl u) (concat (batches l))) → ok u).
  { intros l u. rewrite dedupe_elem_of, list_elem_of_filter. intros [Hv Hu]. split.
    - by eapply batches_no_query.
    - apply isValidImageUrl_protocol. by apply Is_true_true. }
  split.
  - intros obs st Hst u Hu.
    destruct (scrollLoop_captured (viewportHeight p) obs (initial_locals p) st)
      as [Hc _]; [apply initial_locals_in_sync | done |].
    simpl in Hc. rewrite accepted_nil_l in Hc. rewrite Hc in Hu. by eapply Hok.
  - intros store out n nm upd Hscan Hres.
    destruct (performSmartScrape_saved p store out n nm upd Hscan Hres)
      as (st & a & apps' & _ & _ & Hn & Hstore & Hs & _ & Hw).
    exists a, apps'. split; [done|]. split; [done|]. split; [by rewrite Hs|].
    intros u. rewrite Hs. apply Hok.
Qed.

(** The saved URL of the first image has lost its query. *)
Example C9_witness :
  ∃ out a,
    performSmartScrape (host := Whatwg.host)
      (ex_page [ex_top; ex_middle; ex_bottom; ex_bottom]) None = Some out
    ∧ store_after out = Some [a]
    ∧ ∀ u, u ∈ screens a →
           JS.includes "?" u = false
           ∧ (Whatwg.protocol u = Some "http:" ∨ Whatwg.protocol u = Some "https:").
Proof.
  assert (Hscan : performSmartScrape (host := Whatwg.host)
                    (ex_page [ex_top; ex_middle; ex_bottom; ex_bottom]) None
                  = Some ex_outcome) by (vm_compute; reflexivity).
  destruct (proj2 (C9_saved_urls_have_no_query_and_are_http (H := Whatwg.host)
                     (ex_page [ex_top; ex_middle; ex_bottom; ex_bottom]))
              None ex_outcome 3%nat "Foo" false Hscan eq_refl)
    as (a & apps' & Hstore & Hw & _ & Hall).
  exists ex_outcome, a. split; [exact Hscan|]. split.
  - rewrite Hstore. destruct Hw as [->|(k & Hk & _)]; [done|]. simpl in Hk. lia.
  - exact Hall.
Defined.

(** C9 as stated fails on the fragment: an image whose [src] ends in [#v2]
    is saved with it. *)
Example C9_counterexample :
  performSmartScrape (host := Whatwg.host) (ex_page [ex_fragment; ex_fragment]) None
  = Some ex_fragment_outcome
  ∧ result ex_fragment_outcome = Success 1 "Foo" false
  ∧ JS.includes "#" "https://cdn.mobbin.com/c.png#v2" = true
  ∧ ∃ a, store_after ex_fragment_outcome = Some [a]
         ∧ screens a = ["https://cdn.mobbin.com/c.png#v2"].
Proof.
  split; [vm_compute; reflexivity|]. split; [reflexivity|]. split; [reflexivity|].
  eexists. split; reflexivity.
Qed.

(** ** The listener's flags *)

Lemma deliver_keeps_idle (s : System) (e : Event) :
  is_start e = false → isScraping (flags s) = false → isScraping (flags (deliver s e)) = false.
Proof.
  destruct e as [meta action|]; simpl; [|done].
  intros Hns%bool_decide_eq_false Hidle. unfold onMessage.
  repeat (destruct (decide _); simpl; try done).
Qed.

Lemma foldl_deliver_keeps_idle (events : list Event) (s : System) :
  Forall (fun e => is_start e = false) events →
  isScraping (flags s) = false →
  isScraping (flags (foldl deliver s events)) = false.
Proof.
  revert s. induction events as [|e events IH]; intros s Hall Hidle; simpl; [done|].
  apply Forall_cons in Hall as [He Hall]. apply IH; [done|]. by apply deliver_keeps_idle.
Qed.

Lemma deliver_keeps_aborted (s : System) (e : Event) :
  is_start e = false → scrapingAborted (flags s) = true →
  scrapingAborted (flags (deliver s e)) = true.
Proof.
  destruct e as [meta action|]; simpl; [|done].
  intros Hns%bool_decide_eq_false Hset. unfold onMessage.
  repeat (destruct (decide _); simpl; try done).
Qed.

Lemma foldl_deliver_keeps_aborted (events : list Event) (s : System) :
  Forall (fun e => is_start e = false) events →
  scrapingAborted (flags s) = true →
  scrapingAborted (flags (foldl deliver s events)) = true.
Proof.
  revert s. induction events as [|e events IH]; intros s Hall Hset; simpl; [done|].
  apply Forall_cons in Hall as [He Hall]. apply IH; [done|]. by apply deliver_keeps_aborted.
Qed.

Lemma polled_app (s : System) (pre post : list (list Event * IterObs)) :
  polled s (pre ++ post) = polled s pre ++ polled (handled s pre) post.
Proof.
  revert s. induction pre as [|[events o] pre IH]; intros s; [done|].
  simpl. by rewrite IH.
Qed.

(** C5, as the code has it.  The scan runs under the listener and is
    suspended in its loop with K > 0 images in the array.  When the listener
    handles [abort_scrape] during that suspension and no [start_scrape]
    after it before the scan evaluates its loop condition again, the scan
    answers [{status: "aborted", ...}] and the store is what it was: the K
    images are not saved. *)
Theorem C5_abort_found_at_the_next_poll_discards_images `{Host}
    (p : Page) (store : Store) (m : Meta) (s : System)
    (pre : list (list Event * IterObs)) (before after : list Event) (meta : string + Meta)
    (o : IterObs) (rest : list (list Event * IterObs)) (st : Locals) :
  getPageMeta p = inr m → meta_name m ≠ "" →
  observations p
  = polled s (pre ++ (before ++ Request meta "abort_scrape" :: after, o) :: rest) →
  exit (scrollLoop (viewportHeight p) (polled s pre) (initial_locals p)) = Running st →
  (0 < length (capturedImages st))%nat →
  Forall (fun e => is_start e = false) after →
  ∃ eff, performSmartScrape p store
         = Some {| result := Aborted "Scrape cancelled by user"; store_after := store;
                   trace := eff |}.
Proof.
  intros Hm Hn Hobs Hpre _ Hafter. eexists.
  apply (performSmartScrape_cancelled p store m st Hm Hn).
  rewrite Hobs, polled_app.
  destruct (scrollLoop_app (viewportHeight p) (polled s pre)
              (polled (handled s pre)
                 ((before ++ Request meta "abort_scrape" :: after, o) :: rest)) _ st Hpre)
    as (-> & _ & _).
  cbn [polled scrollLoop set_abort_flag abort_flag].
  rewrite foldl_app. cbn [foldl].
  rewrite foldl_deliver_keeps_aborted; [done | done |].
  unfold deliver, onMessage. by repeat (destruct (decide _); try done).
Qed.

(** Two images are in the array when [abort_scrape] is handled; the scan
    finds the flag when it wakes up, and the store keeps its one old
    entry. *)
Example C5_witness :
  ∃ eff, performSmartScrape (host := Whatwg.host)
           (ex_page (polled ex_started ex_aborted_passes)) (Some [ex_bar])
         = Some {| result := Aborted "Scrape cancelled by user"; store_after := Some [ex_bar];
                   trace := eff |}.
Proof.
  eapply (C5_abort_found_at_the_next_poll_discards_images (H := Whatwg.host)
            (ex_page (polled ex_started ex_aborted_passes)) (Some [ex_bar]) ex_meta_foo
            ex_started [([], ex_top)] [] [] (inr ex_meta_foo) ex_middle [([], ex_bottom)]).
  - reflexivity.
  - discriminate.
  - reflexivity.
  - reflexivity.
  - vm_compute. lia.
  - constructor.
Defined.

(** C5 as stated fails.  The listener handles [abort_scrape] while the scan
    sleeps after its first pass, with two images in the array: the flag is
    set.  It handles [start_scrape] during the same sleep, which the cleared
    [isScraping] lets through and which clears the flag again.  The scan
    wakes up, finds the flag cleared, goes on to the bottom of the page and
    saves three screens. *)
Example C5_counterexample :
  scrapingAborted (flags (deliver ex_started ex_abort_request)) = true
  ∧ flags (foldl deliver ex_started [ex_abort_request; ex_start_request])
    = {| isScraping := true; scrapingAborted := false |}
  ∧ match exit (scrollLoop (host := Whatwg.host) 800 (polled ex_started (take 1 ex_restarted_passes))
                  (initial_locals (ex_page []))) with
    | Running st => length (capturedImages st) = 2%nat
    | _ => False
    end
  ∧ performSmartScrape (host := Whatwg.host)
      (ex_page (polled ex_started ex_restarted_passes)) (Some [ex_bar])
    = Some ex_restarted_outcome
  ∧ result ex_restarted_outcome = Success 3 "Foo" false
  ∧ store_after ex_restarted_outcome ≠ Some [ex_bar]
  ∧ ∃ a, store_after ex_restarted_outcome = Some [a; ex_bar] ∧ length (screens a) = 3%nat.
Proof.
  split; [reflexivity|]. split; [reflexivity|]. split; [vm_compute; reflexivity|].
  split; [vm_compute; reflexivity|]. split; [reflexivity|]. split; [discriminate|].
  eexists. split; reflexivity.
Qed.

(** Once [abort_scrape] has been handled, [scrapingAborted] stays set until a
    [start_scrape] is handled: a loop that wakes up before that finds it
    set. *)
Theorem abort_flag_stays_set_until_next_start
    (s : System) (meta : string + Meta) (events : list Event) :
  Forall (fun e => is_start e = false) events →
  scrapingAborted (flags (foldl deliver (deliver s (Request meta "abort_scrape")) events)) = true.
Proof.
  intros Hall.
  assert (Hgen : ∀ s0, scrapingAborted (flags s0) = true →
                       scrapingAborted (flags (foldl deliver s0 events)) = true).
  { induction Hall as [|e events He _ IH]; intros s0 Hs0; simpl; [done|].
    apply IH. by apply deliver_keeps_aborted. }
  apply Hgen. reflexivity.
Qed.

Example abort_flag_witness :
  scrapingAborted
    (flags (foldl deliver
              (deliver {| flags := {| isScraping := true; scrapingAborted := false |};
                          in_flight := 1 |}
                 (Request (inr ex_meta_foo) "abort_scrape"))
              [Request (inr ex_meta_foo) "ping"; Request (inr ex_meta_foo) "get_meta"]))
  = true.
Proof.
  apply (abort_flag_stays_set_until_next_start
           {| flags := {| isScraping := true; scrapingAborted := false |}; in_flight := 1 |}
           (inr ex_meta_foo)
           [Request (inr ex_meta_foo) "ping"; Request (inr ex_meta_foo) "get_meta"]).
  repeat constructor.
Defined.

(** C10. In every state of the flags, with or without a scan in flight,
    [abort_scrape] is answered [{status: "aborted"}] and leaves [isScraping]
    cleared and [scrapingAborted] set, and the scans in flight stay in
    flight.  Whatever follows that is not itself a [start_scrape] (other
    requests, scans settling or not), the next [start_scrape] is not refused
    with "Scrape already in progress": it starts a scan, beside those still
    in flight. *)
Theorem C10_start_after_abort_is_accepted
    (s : System) (meta meta' : string + Meta) (events : list Event) :
  onMessage meta "abort_scrape" (flags s)
  = ({| isScraping := false; scrapingAborted := true |}, Respond (StatusOnly "aborted"))
  ∧ in_flight (deliver s (Request meta "abort_scrape")) = in_flight s
  ∧ (Forall (fun e => is_start e = false) events →
     let s' := foldl deliver (deliver s (Request meta "abort_scrape")) events in
     onMessage meta' "start_scrape" (flags s')
     = ({| isScraping := true; scrapingAborted := false |}, Started)
     ∧ in_flight (deliver s' (Request meta' "start_scrape")) = S (in_flight s')).
Proof.
  split; [reflexivity|]. split; [reflexivity|]. intros Hall s'.
  assert (Hidle : isScraping (flags s') = false).
  { apply foldl_deliver_keeps_idle; [done | reflexivity]. }
  simpl. unfold onMessage. simpl. rewrite Hidle. done.
Qed.

(** A scan is in flight; the abort and a ping arrive before its loop has
    looked at the flag; the next [start_scrape] is accepted, and two scans
    are in flight. *)
Example C10_witness :
  onMessage (inr ex_meta_foo) "start_scrape"
    (flags (foldl deliver
              (deliver {| flags := {| isScraping := true; scrapingAborted := false |};
                          in_flight := 1 |}
                 (Request (inr ex_meta_foo) "abort_scrape"))
              [Request (inr ex_meta_foo) "ping"]))
  = ({| isScraping := true; scrapingAborted := false |}, Started)
  ∧ in_flight
      (deliver
         (foldl deliver
            (deliver {| flags := {| isScraping := true; scrapingAborted := false |};
                        in_flight := 1 |}
               (Request (inr ex_meta_foo) "abort_scrape"))
            [Request (inr ex_meta_foo) "ping"])
         (Request (inr ex_meta_foo) "start_scrape"))
    = 2%nat.
Proof.
  apply (proj2 (proj2 (C10_start_after_abort_is_accepted
                         {| flags := {| isScraping := true; scrapingAborted := false |};
                            in_flight := 1 |}
                         (inr ex_meta_foo) (inr ex_meta_foo)
                         [Request (inr ex_meta_foo) "ping"]))).
  repeat constructor.
Defined.

(** ** Further properties of the save *)

(** Saving the same scan again overwrites the record the first save wrote:
    the second save reports an update, keeps that record's [dateAdded] and
    [screens], and only moves [dateUpdated]. *)
Theorem rescrape_updates_the_same_record
    (href : string) (now1 now2 : Z) (imgs : list string) (meta : Meta) (store : Store) :
  ∃ k a upd apps1,
    saveToStorage no_faults href now1 imgs meta store
    = (inr (Success (length imgs) (meta_name meta) upd), Some apps1)
    ∧ apps1 !! k = Some a
    ∧ screens a = imgs ∧ dateUpdated a = now1
    ∧ saveToStorage no_faults href now2 imgs meta (Some apps1)
      = (inr (Success (length imgs) (meta_name meta) true),
         Some (<[k := {| id := id a; name := name a; logo := logo a; sourceUrl := sourceUrl a;
                         screenCount := screenCount a; screens := screens a;
                         dateAdded := dateAdded a; dateUpdated := now2 |}]> apps1)).
Proof.
  unfold saveToStorage. simpl.
  destruct (upsert_cases (appId_of href meta) now1 imgs meta (default [] store))
    as [(k & old & Hk & _ & Hlt & ->)|[_ ->]].
  - set (a := set_dateAdded (dateAdded old) (newAppData (appId_of href meta) now1 imgs meta)).
    exists k, a, true. eexists. split; [reflexivity|].
    assert (Ha : <[k:=a]> (default [] store) !! k = Some a).
    { apply list_lookup_insert_eq. by eapply lookup_lt_Some. }
    split; [done|]. split; [done|]. split; [done|].
    rewrite (upsert_match _ now2 imgs meta _ k a Ha); [done | |].
    + apply is_duplicate_iff. by left.
    + intros j y Hj Hy. rewrite list_lookup_insert_ne in Hy by lia. by eapply Hlt.
  - set (a := newAppData (appId_of href meta) now1 imgs meta).
    exists 0%nat, a, false. eexists. split; [reflexivity|].
    split; [done|]. split; [done|]. split; [done|].
    rewrite (upsert_match _ now2 imgs meta _ 0%nat a); [done | done | |].
    + apply is_duplicate_iff. by left.
    + intros j y Hj. lia.
Qed.

(** A rejected write ends the scan with an error and leaves the store as it
    was; the message names the quota exactly when the rejection mentions
    [QUOTA_BYTES]. *)
Theorem quota_error_is_distinct `{Host}
    (p : Page) (store : Store) (m : Meta) (st : Locals) (e : string) :
  getPageMeta p = inr m → meta_name m ≠ "" →
  exit (scrollLoop (viewportHeight p) (observations p) (initial_locals p)) = Converged st →
  capturedImages st ≠ [] →
  get_error (faults p) = None → set_error (faults p) = Some e →
  ∃ eff, performSmartScrape p store
         = Some {| result := Error (if JS.includes "QUOTA_BYTES" e
                                    then "Storage quota exceeded. Try clearing some apps first."
                                    else "Failed to save: " +:+ e);
                   store_after := store; trace := eff |}.
Proof.
  intros Hm Hn Hex Hc Hget Hset. eexists.
  rewrite (performSmartScrape_converged p store m st Hm Hn Hex).
  unfold finish. destruct (capturedImages st) as [|u l] eqn:Hcap; [done|]. simpl.
  unfold saveToStorage. rewrite Hget.
  destruct (upsert_cases (appId_of (href p) m) (now p) (u :: l) m (default [] store))
    as [(k & old & _ & _ & _ & ->)|[_ ->]]; rewrite Hset; unfold scraping_error, storage_error;
    (destruct (decide (e = "")) as [->|Hne];
     [simpl; reflexivity|];
     rewrite bool_decide_true by done; simpl;
     destruct (JS.includes "QUOTA_BYTES" e); rewrite or_else_nonempty by discriminate;
     reflexivity).
Qed.

Example quota_error_witness :
  ∃ eff, performSmartScrape (host := Whatwg.host) ex_quota_page (Some [ex_bar])
         = Some {| result := Error "Storage quota exceeded. Try clearing some apps first.";
                   store_after := Some [ex_bar]; trace := eff |}.
Proof.
  eapply (quota_error_is_distinct (H := Whatwg.host) ex_quota_page (Some [ex_bar]) ex_meta_foo
            _ "QUOTA_BYTES quota exceeded").
  - reflexivity.
  - discriminate.
  - vm_compute. reflexivity.
  - discriminate.
  - reflexivity.
  - reflexivity.
Defined.

(** * Properties of the rest of the extension *)

(** ** [sort] *)

Section SortFacts.
Context {A : Type}.

Lemma sort_insert_perm (compareFn : A → A → Z) (x : A) (l : list A) :
  sort_insert compareFn x l ≡ₚ x :: l.
Proof.
  induction l as [|y l IH]; simpl; [done|].
  destruct (0 <? compareFn x y); [|done].
  rewrite IH. apply perm_swap.
Qed.

Lemma sort_perm (compareFn : A → A → Z) (l : list A) : sort compareFn l ≡ₚ l.
Proof.
  induction l as [|x l IH]; simpl; [done|].
  by rewrite sort_insert_perm, IH.
Qed.

Lemma sort_elem_of (compareFn : A → A → Z) (l : list A) (x : A) :
  x ∈ sort compareFn l ↔ x ∈ l.
Proof. by rewrite sort_perm. Qed.

Lemma sort_ext (f g : A → A → Z) (l : list A) :
  (∀ a b, f a b = g a b) → sort f l = sort g l.
Proof.
  intros Hfg. induction l as [|x l IH]; simpl; [done|]. rewrite IH.
  generalize (sort g l) as m. intros m. induction m as [|y m IHm]; simpl; [done|].
  by rewrite Hfg, IHm.
Qed.

Variable key : A → Z.

Lemma sort_insert_descending (x : A) (l : list A) :
  descending key l → descending key (sort_insert (fun a b => key b - key a) x l).
Proof.
  unfold descending. induction l as [|y l IH]; simpl; intros Hl.
  - repeat constructor.
  - apply StronglySorted_inv in Hl as [Hl Hy].
    destruct (Z.ltb_spec 0 (key y - key x)) as [Hlt|Hge].
    + constructor; [by apply IH|].
      rewrite sort_insert_perm. constructor; [lia | done].
    + constructor; [by constructor|].
      constructor; [lia|]. eapply Forall_impl; [exact Hy|]. simpl. intros z Hz. lia.
Qed.

Lemma sort_descending (l : list A) : descending key (sort (fun a b => key b - key a) l).
Proof.
  induction l as [|x l IH]; simpl; [constructor|]. by apply sort_insert_descending.
Qed.

(** Elements with one key keep the order they had. *)
Lemma sort_insert_stable (k : Z) (x : A) (l : list A) :
  descending key l →
  filter (fun a => key a = k) (sort_insert (fun a b => key b - key a) x l)
  = filter (fun a => key a = k) (x :: l).
Proof.
  unfold descending. induction l as [|y l IH]; simpl; intros Hl; [done|].
  apply StronglySorted_inv in Hl as [Hl Hy].
  destruct (Z.ltb_spec 0 (key y - key x)) as [Hlt|Hge]; [|done].
  rewrite (filter_cons _ y), IH, !filter_cons by done.
  destruct (decide (key y = k)), (decide (key x = k)); try done. lia.
Qed.

Lemma sort_stable (k : Z) (l : list A) :
  filter (fun a => key a = k) (sort (fun a b => key b - key a) l)
  = filter (fun a => key a = k) l.
Proof.
  induction l as [|x l IH]; simpl; [done|].
  rewrite sort_insert_stable by apply sort_descending.
  by rewrite !filter_cons, IH.
Qed.

(** The first element of the result has the largest key. *)
Lemma sort_head_max (l : list A) (best : A) (rest : list A) :
  sort (fun a b => key b - key a) l = best :: rest →
  best ∈ l ∧ ∀ c, c ∈ l → key c ≤ key best.
Proof.
  intros Hs. pose proof (sort_descending l) as Hd. rewrite Hs in Hd.
  apply StronglySorted_inv in Hd as [_ Hall].
  split.
  - apply (sort_elem_of (fun a b => key b - key a)). rewrite Hs. left.
  - intros c Hc. apply (sort_elem_of (fun a b => key b - key a)) in Hc.
    rewrite Hs in Hc. apply elem_of_cons in Hc as [->|Hc]; [lia|].
    by apply (proj1 (Forall_forall _ _) Hall).
Qed.

Lemma sort_nil_inv (compareFn : A → A → Z) (l : list A) : sort compareFn l = [] → l = [].
Proof.
  intros Hs. apply Permutation_nil. rewrite <- Hs. apply sort_perm.
Qed.

End SortFacts.

(** ** Searching and sorting the library *)

Lemma includes_empty (s : string) : JS.includes "" s = true.
Proof. by destruct s. Qed.

Lemma includes_cons (needle : string) (a : ascii) (s : string) :
  JS.includes needle s = true → JS.includes needle (String a s) = true.
Proof. intros Hs. cbn [JS.includes]. rewrite Hs. apply orb_true_r. Qed.

Lemma includes_prefix (needle s : string) :
  String.prefix needle s = true → JS.includes needle s = true.
Proof. intros Hp. destruct s; cbn [JS.includes]; by rewrite Hp. Qed.

Lemma prefix_refl (s : string) : String.prefix s s = true.
Proof. induction s as [|a s IH]; simpl; [done|]. by destruct (ascii_dec a a). Qed.

Lemma trimEnd_prefix (s : string) : String.prefix (Str.trimEnd s) s = true.
Proof.
  induction s as [|a s IH]; simpl; [done|].
  destruct (Str.trimEnd s) as [|b t] eqn:Ht.
  - destruct (JS.is_space a); simpl; [done|]. by destruct (ascii_dec a a).
  - simpl. destruct (ascii_dec a a); [exact IH | done].
Qed.

(** What [trim] leaves of a text is a piece of it. *)
Lemma includes_trim (s : string) : JS.includes (Str.trim s) s = true.
Proof.
  unfold Str.trim. induction s as [|a s IH]; [done|].
  simpl Str.trimStart. destruct (JS.is_space a).
  - by apply includes_cons.
  - apply includes_prefix, trimEnd_prefix.
Qed.

Section LibraryFacts.
Context {locale : Locale}.

Lemma applySortAndFilter_elem_of (d : Dashboard.Dash) (app : App) :
  app ∈ Dashboard.filteredApps (Dashboard.applySortAndFilter d)
  ↔ app ∈ Dashboard.appsData d
    ∧ JS.includes (Dashboard.currentSearch d) (JS.toLowerCase (name app)) = true.
Proof.
  unfold Dashboard.applySortAndFilter. simpl. rewrite sort_elem_of.
  destruct (decide (Dashboard.currentSearch d = "")) as [->|Hne].
  - rewrite includes_empty. naive_solver.
  - rewrite list_elem_of_filter, Is_true_true. naive_solver.
Qed.

End LibraryFacts.

(** The library view shows exactly the stored apps whose lower-cased name
    contains the search text, each as often as it is stored; under
    "screens" the app with more screens comes first, and under "recent" (or
    any other value but "name") the app added later comes first.
    [appsData] is not touched. *)
Theorem applySortAndFilter_shows_the_matches_in_order `{Locale} (d : Dashboard.Dash) :
  let d' := Dashboard.applySortAndFilter d in
  Dashboard.appsData d' = Dashboard.appsData d
  ∧ Dashboard.filteredApps d'
    ≡ₚ filter (fun app => JS.includes (Dashboard.currentSearch d) (JS.toLowerCase (name app)))
         (Dashboard.appsData d)
  ∧ (Dashboard.currentSearch d = "" → Dashboard.filteredApps d' ≡ₚ Dashboard.appsData d)
  ∧ (Dashboard.currentSort d = "screens" →
     descending (fun a => Z.of_nat (screenCount a)) (Dashboard.filteredApps d'))
  ∧ (Dashboard.currentSort d ≠ "name" → Dashboard.currentSort d ≠ "screens" →
     descending dateAdded (Dashboard.filteredApps d')).
Proof.
  intros d'. subst d'. unfold Dashboard.applySortAndFilter. simpl.
  split; [done|]. split; [|split; [|split]].
  - rewrite sort_perm. destruct (decide (Dashboard.currentSearch d = "")) as [->|Hne]; [|done].
    symmetry. rewrite filter_all; [done|]. intros app _. by rewrite includes_empty.
  - intros ->. rewrite sort_perm. by rewrite decide_True.
  - intros Hs. unfold Dashboard.compareFn. rewrite Hs.
    rewrite (sort_ext _ (fun a b => Z.of_nat (screenCount b) - Z.of_nat (screenCount a)))
      by (intros a b; by repeat (destruct (decide _); try done)).
    apply (sort_descending (fun a => Z.of_nat (screenCount a))).
  - intros Hn Hs.
    rewrite (sort_ext _ (fun a b => dateAdded b - dateAdded a)).
    + apply (sort_descending dateAdded).
    + intros a b. unfold Dashboard.compareFn. by rewrite !decide_False.
Qed.

Lemma trimStart_blank (s : string) : Str.all_chars JS.is_space s = true → Str.trimStart s = "".
Proof.
  induction s as [|a s IH]; [done|].
  simpl. intros [Ha Hs]%andb_true_iff. rewrite Ha. by apply IH.
Qed.

Lemma trim_blank (s : string) : Str.all_chars JS.is_space s = true → Str.trim s = "".
Proof. intros Hs. unfold Str.trim. by rewrite trimStart_blank. Qed.

Lemma toLowerCase_app (s t : string) :
  JS.toLowerCase (s +:+ t) = JS.toLowerCase s +:+ JS.toLowerCase t.
Proof. induction s as [|a s IH]; [done|]. rewrite append_cons. simpl. by rewrite IH. Qed.

Lemma lower_ascii_space (a : ascii) : JS.is_space a = true → JS.lower_ascii a = a.
Proof. destruct a as [[|] [|] [|] [|] [|] [|] [|] [|]]; vm_compute; congruence. Qed.

Lemma toLowerCase_blank (s : string) :
  Str.all_chars JS.is_space s = true → JS.toLowerCase s = s.
Proof.
  induction s as [|a s IH]; [done|].
  simpl. intros [Ha Hs]%andb_true_iff. by rewrite (lower_ascii_space a Ha), IH.
Qed.

Lemma trimStart_app_blank_l (pad s : string) :
  Str.all_chars JS.is_space pad = true → Str.trimStart (pad +:+ s) = Str.trimStart s.
Proof.
  induction pad as [|a pad IH]; [done|].
  cbn [Str.all_chars]. intros [Ha Hs]%andb_true_iff.
  rewrite append_cons. cbn [Str.trimStart]. rewrite Ha. by apply IH.
Qed.

Lemma trimEnd_blank (s : string) : Str.all_chars JS.is_space s = true → Str.trimEnd s = "".
Proof.
  induction s as [|a s IH]; [done|].
  simpl. intros [Ha Hs]%andb_true_iff. by rewrite (IH Hs), Ha.
Qed.

Lemma trimEnd_app_blank (s pad : string) :
  Str.all_chars JS.is_space pad = true → Str.trimEnd (s +:+ pad) = Str.trimEnd s.
Proof.
  intros Hpad. induction s as [|a s IH]; [by apply trimEnd_blank|].
  rewrite append_cons. cbn [Str.trimEnd]. by rewrite IH.
Qed.

Lemma trim_app_blank_r (s pad : string) :
  Str.all_chars JS.is_space pad = true → Str.trim (s +:+ pad) = Str.trim s.
Proof.
  intros Hpad. unfold Str.trim. induction s as [|a s IH].
  - rewrite append_empty_l, trimStart_blank by done. done.
  - rewrite append_cons. cbn [Str.trimStart]. destruct (JS.is_space a); [exact IH|].
    rewrite <- append_cons. by apply trimEnd_app_blank.
Qed.

(** White space around a text does not change what [trim] leaves of it. *)
Lemma trim_padded (lead s trail : string) :
  Str.all_chars JS.is_space lead = true → Str.all_chars JS.is_space trail = true →
  Str.trim (lead +:+ s +:+ trail) = Str.trim s.
Proof.
  intros Hl Ht. rewrite <- (trim_app_blank_r s trail Ht).
  unfold Str.trim. by rewrite trimStart_app_blank_l.
Qed.

(** Typing an app's name into the search box, in whatever letter case and
    with white space in front of it or behind it, keeps that app in the
    library view. *)
Theorem search_by_name_finds_the_app `{Locale}
    (d : Dashboard.Dash) (app : App) (lead typed trail : string) :
  app ∈ Dashboard.appsData d →
  JS.toLowerCase typed = JS.toLowerCase (name app) →
  Str.all_chars JS.is_space lead = true → Str.all_chars JS.is_space trail = true →
  app ∈ Dashboard.filteredApps (Dashboard.handleSearch (lead +:+ typed +:+ trail) d).
Proof.
  intros Hin Hv Hl Ht. unfold Dashboard.handleSearch.
  change (Dashboard.filteredApps (Dashboard.renderLibrary ?x)) with (Dashboard.filteredApps x).
  apply applySortAndFilter_elem_of. simpl. split; [done|].
  rewrite !toLowerCase_app, (toLowerCase_blank lead Hl), (toLowerCase_blank trail Ht).
  rewrite trim_padded by done. rewrite Hv. apply includes_trim.
Qed.

Example search_by_name_witness :
  ex_foo_old
  ∈ Dashboard.filteredApps (Dashboard.handleSearch (locale := ex_locale) "  FOO " ex_dash).
Proof.
  apply (search_by_name_finds_the_app (H := ex_locale) ex_dash ex_foo_old "  " "FOO" " ").
  - right. left.
  - reflexivity.
  - reflexivity.
  - reflexivity.
Defined.

(** ** Deleting a collection *)

Section DeleteFacts.
Context {locale : Locale}.

Lemma handleDeleteApp_confirmed (e : option string) (d : Dashboard.Dash) (store : Store)
    (app : App) :
  Dashboard.currentApp d = Some app →
  let kept := filter (fun a => id a ≠ id app) (Dashboard.appsData d) in
  Dashboard.handleDeleteApp true e d store
  = match e with
    | Some _ =>
        (Dashboard.showToast "Failed to delete app" "error" (Dashboard.set_appsData kept d),
         store)
    | None =>
        (Dashboard.showToast "Failed to delete app" "error"
           (Dashboard.showLibrary
              (Dashboard.applySortAndFilter
                 (Dashboard.set_filteredApps kept (Dashboard.set_appsData kept d)))),
         Some kept)
    end.
Proof. intros Hc. unfold Dashboard.handleDeleteApp. rewrite Hc. by destruct e. Qed.

End DeleteFacts.

(** A confirmed delete whose write succeeds removes every stored entry that
    has the id of the open app, keeps the others in their order, writes that
    list to the store and returns to the library. *)
Theorem delete_removes_every_entry_with_the_id `{Locale}
    (d : Dashboard.Dash) (store : Store) (app : App) :
  Dashboard.currentApp d = Some app →
  let r := Dashboard.handleDeleteApp true None d store in
  Dashboard.appsData (fst r) = filter (fun a => id a ≠ id app) (Dashboard.appsData d)
  ∧ snd r = Some (Dashboard.appsData (fst r))
  ∧ (∀ a, a ∈ Dashboard.appsData (fst r) ↔ a ∈ Dashboard.appsData d ∧ id a ≠ id app)
  ∧ Dashboard.appsData (fst r) `sublist_of` Dashboard.appsData d
  ∧ Dashboard.currentApp (fst r) = None.
Proof.
  intros Hc r. subst r. rewrite (handleDeleteApp_confirmed None d store app Hc). simpl.
  split; [done|]. split; [done|]. split; [|split; [|done]].
  - intros a. rewrite list_elem_of_filter. naive_solver.
  - apply sublist_filter.
Qed.

Example delete_witness :
  snd (Dashboard.handleDeleteApp (locale := ex_locale) true None ex_dash (Some [ex_bar; ex_foo_old]))
  = Some [ex_bar].
Proof.
  destruct (delete_removes_every_entry_with_the_id (H := ex_locale) ex_dash
              (Some [ex_bar; ex_foo_old]) ex_foo_old eq_refl)
    as (Hkept & Hstore & _).
  rewrite Hstore, Hkept. reflexivity.
Defined.

(** After a confirmed delete the toast is "Failed to delete app", whether
    the write was rejected or went through: the success message reads
    [currentApp.name] after [showLibrary] has set [currentApp] to [null]. *)
Theorem delete_always_shows_the_failure_toast `{Locale}
    (e : option string) (d : Dashboard.Dash) (store : Store) (app : App) :
  Dashboard.currentApp d = Some app →
  Dashboard.toasts (fst (Dashboard.handleDeleteApp true e d store))
  = Dashboard.toasts d ++ [("Failed to delete app", "error")].
Proof.
  intros Hc. rewrite (handleDeleteApp_confirmed e d store app Hc). by destruct e.
Qed.

Example delete_toast_witness :
  Dashboard.toasts
    (fst (Dashboard.handleDeleteApp (locale := ex_locale) true None ex_dash
            (Some [ex_bar; ex_foo_old])))
  = [("Failed to delete app", "error")].
Proof.
  apply (delete_always_shows_the_failure_toast (H := ex_locale) None ex_dash
           (Some [ex_bar; ex_foo_old]) ex_foo_old).
  reflexivity.
Defined.

(** When the write of a confirmed delete is rejected the store keeps the
    app, but the dashboard's own list has already lost it, while the
    library view and the open app stay as they were. *)
Theorem delete_rejected_leaves_store_and_memory_apart `{Locale}
    (message : string) (d : Dashboard.Dash) (store : Store) (app : App) :
  Dashboard.currentApp d = Some app →
  let r := Dashboard.handleDeleteApp true (Some message) d store in
  snd r = store
  ∧ Dashboard.appsData (fst r) = filter (fun a => id a ≠ id app) (Dashboard.appsData d)
  ∧ Dashboard.filteredApps (fst r) = Dashboard.filteredApps d
  ∧ Dashboard.currentApp (fst r) = Some app.
Proof.
  intros Hc r. subst r. rewrite (handleDeleteApp_confirmed (Some message) d store app Hc).
  simpl. by rewrite Hc.
Qed.

Example delete_rejected_witness :
  snd (Dashboard.handleDeleteApp (locale := ex_locale) true (Some "QUOTA_BYTES") ex_dash
         (Some [ex_bar; ex_foo_old]))
  = Some [ex_bar; ex_foo_old]
  ∧ Dashboard.appsData
      (fst (Dashboard.handleDeleteApp (locale := ex_locale) true (Some "QUOTA_BYTES") ex_dash
              (Some [ex_bar; ex_foo_old])))
    = [ex_bar].
Proof.
  destruct (delete_rejected_leaves_store_and_memory_apart (H := ex_locale) "QUOTA_BYTES" ex_dash
              (Some [ex_bar; ex_foo_old]) ex_foo_old eq_refl)
    as (Hstore & Hkept & _).
  split; [exact Hstore|]. rewrite Hkept. reflexivity.
Defined.

(** The delete writes the list the dashboard loaded: a collection that a
    scan saved to the store after the dashboard was opened is not in what
    the delete writes back. *)
Theorem delete_drops_what_a_scan_saved_meanwhile `{Locale}
    (d0 : Dashboard.Dash) (store : Store) (app : App)
    (href : string) (now : Z) (imgs : list string) (meta : Meta) :
  (∀ a, a ∈ default [] store → name a ≠ meta_name meta ∧ id a ≠ appId_of href meta) →
  let d := Dashboard.openDetail app (Dashboard.loadData None store d0) in
  let fresh := newAppData (appId_of href meta) now imgs meta in
  let store1 := snd (saveToStorage no_faults href now imgs meta store) in
  let store2 := snd (Dashboard.handleDeleteApp true None d store1) in
  store1 = Some (fresh :: default [] store)
  ∧ store2 = Some (filter (fun a => id a ≠ id app) (default [] store))
  ∧ fresh ∉ default [] store2.
Proof.
  intros Hnew d fresh store1 store2. subst store2.
  rewrite (handleDeleteApp_confirmed None d store1 app eq_refl). simpl.
  split; [|split; [done|]].
  - subst store1. unfold saveToStorage. simpl. rewrite upsert_fresh; [done|].
    intros a Ha. apply not_true_is_false. rewrite is_duplicate_iff.
    destruct (Hnew a Ha). naive_solver.
  - rewrite list_elem_of_filter. intros [_ Hin]. by destruct (Hnew fresh Hin) as [_ Hid].
Qed.

Example delete_drops_witness :
  snd (Dashboard.handleDeleteApp (locale := ex_locale) true None
         (Dashboard.openDetail ex_bar
            (Dashboard.loadData (locale := ex_locale) None (Some [ex_bar]) ex_dash))
         (snd (saveToStorage no_faults "https://mobbin.com/apps/foo-new" 2000
                 ["https://cdn.mobbin.com/a.png"] ex_meta_foo (Some [ex_bar]))))
  = Some [].
Proof.
  refine (proj1 (proj2 (delete_drops_what_a_scan_saved_meanwhile (H := ex_locale) ex_dash
                          (Some [ex_bar]) ex_bar "https://mobbin.com/apps/foo-new" 2000
                          ["https://cdn.mobbin.com/a.png"] ex_meta_foo _))).
  intros a ->%list_elem_of_singleton. split; discriminate.
Defined.

(** Under unique names and ids, scanning an app again after it was deleted
    creates it anew: the save is an insert in front, not an update, and
    [dateAdded] is the time of the new scan. *)
Theorem rescan_after_delete_creates_anew `{Locale}
    (d : Dashboard.Dash) (store : Store) (app : App)
    (href : string) (now : Z) (imgs : list string) (meta : Meta) :
  at_most_one_per_key (Dashboard.appsData d) →
  Dashboard.currentApp d = Some app →
  app ∈ Dashboard.appsData d →
  name app = meta_name meta → id app = appId_of href meta →
  let r := Dashboard.handleDeleteApp true None d store in
  saveToStorage no_faults href now imgs meta (snd r)
  = (inr (Success (length imgs) (meta_name meta) false),
     Some (newAppData (appId_of href meta) now imgs meta :: Dashboard.appsData (fst r))).
Proof.
  intros [Hn Hi] Hc Hin Hname Hid r. subst r.
  rewrite (handleDeleteApp_confirmed None d store app Hc). simpl.
  unfold saveToStorage. simpl. rewrite upsert_fresh; [done|].
  intros a [Hne Ha]%list_elem_of_filter. apply not_true_is_false. rewrite is_duplicate_iff.
  intros [Hsame|Hsame]; [|congruence].
  apply list_elem_of_lookup in Ha as [j Hj]. apply list_elem_of_lookup in Hin as [k Hk].
  assert (j = k) by (apply (NoDup_fmap_lookup name (Dashboard.appsData d) j k a app);
                     congruence).
  congruence.
Qed.

Example rescan_after_delete_witness :
  saveToStorage no_faults "https://mobbin.com/apps/foo-old" 3000 ["https://cdn.mobbin.com/a.png"]
    {| meta_name := "Foo"; meta_logo := "l"; meta_url := "https://mobbin.com/apps/foo-old" |}
    (snd (Dashboard.handleDeleteApp (locale := ex_locale) true None ex_dash
            (Some [ex_bar; ex_foo_old])))
  = (inr (Success 1 "Foo" false),
     Some [ {| id := "foo-old"; name := "Foo"; logo := "l";
               sourceUrl := "https://mobbin.com/apps/foo-old"; screenCount := 1;
               screens := ["https://cdn.mobbin.com/a.png"];
               dateAdded := 3000; dateUpdated := 3000 |};
            ex_bar ]).
Proof.
  apply (rescan_after_delete_creates_anew (H := ex_locale) ex_dash (Some [ex_bar; ex_foo_old])
           ex_foo_old "https://mobbin.com/apps/foo-old" 3000 ["https://cdn.mobbin.com/a.png"]
           {| meta_name := "Foo"; meta_logo := "l";
              meta_url := "https://mobbin.com/apps/foo-old" |}).
  - split; simpl; repeat constructor; set_solver.
  - reflexivity.
  - right. left.
  - reflexivity.
  - reflexivity.
Defined.

(** ** Escaping text *)

Lemma includes_char_app (c : ascii) (s t : string) :
  JS.includes (String c EmptyString) (s +:+ t)
  = JS.includes (String c EmptyString) s || JS.includes (String c EmptyString) t.
Proof.
  induction s as [|a s IH].
  - rewrite append_empty_l. by destruct t.
  - rewrite append_cons, !includes_char_cons, IH. by rewrite orb_assoc.
Qed.

Lemma escape_char_plain (a : ascii) : needs_escape a = false → escape_char a = String a "".
Proof.
  unfold needs_escape, escape_char.
  intros [[[-> ->]%orb_false_iff ->]%orb_false_iff ->]%orb_false_iff. done.
Qed.

Lemma escape_char_cases (a : ascii) :
  (needs_escape a = false ∧ escape_char a = String a "")
  ∨ (needs_escape a = true
     ∧ ∃ body, escape_char a = String "&"%char body
               ∧ JS.includes "<" body = false ∧ JS.includes ">" body = false
               ∧ has_escapable body = false ∧ body ≠ "").
Proof.
  destruct (needs_escape a) eqn:Hn; [right|left; split; [done|by apply escape_char_plain]].
  split; [done|]. unfold needs_escape in Hn. unfold escape_char.
  destruct (Ascii.eqb a "&"); [by exists "amp;"|].
  destruct (Ascii.eqb a "<"); [by exists "lt;"|].
  destruct (Ascii.eqb a ">"); [by exists "gt;"|].
  destruct (Ascii.eqb a "160"); [by exists "nbsp;"|done].
Qed.

Lemma has_escapable_app (s t : string) :
  has_escapable (s +:+ t) = has_escapable s || has_escapable t.
Proof.
  induction s as [|a s IH]; [done|].
  rewrite append_cons. simpl. by rewrite IH, orb_assoc.
Qed.

Lemma has_escapable_sanitizeText (s : string) :
  has_escapable (sanitizeText s) = has_escapable s.
Proof.
  induction s as [|a s IH]; [done|].
  simpl. rewrite has_escapable_app, IH.
  destruct (escape_char_cases a) as [[Hn ->]|[Hn (body & -> & _ & _ & Hb & _)]].
  - simpl. by rewrite orb_false_r.
  - simpl. by rewrite Hn.
Qed.

Lemma sanitizeText_plain (s : string) : has_escapable s = false → sanitizeText s = s.
Proof.
  induction s as [|a s IH]; [done|].
  simpl. intros [Ha Hs]%orb_false_iff.
  by rewrite (escape_char_plain a Ha), IH.
Qed.

Lemma length_app_string (s t : string) :
  String.length (s +:+ t) = (String.length s + String.length t)%nat.
Proof. induction s as [|a s IH]; [done|]. rewrite append_cons. simpl. by rewrite IH. Qed.

Lemma sanitizeText_length (s : string) : (String.length s ≤ String.length (sanitizeText s))%nat.
Proof.
  induction s as [|a s IH]; [done|].
  simpl. rewrite length_app_string.
  destruct (escape_char_cases a) as [[_ ->]|[_ (body & -> & _)]]; simpl; lia.
Qed.

Lemma sanitizeText_fixed (s : string) : sanitizeText s = s → has_escapable s = false.
Proof.
  induction s as [|a s IH]; [done|].
  simpl. destruct (escape_char_cases a) as [[Hn ->]|[Hn (body & -> & _ & _ & _ & Hb)]].
  - rewrite append_cons, append_empty_l. intros [= Hs]. by rewrite Hn, IH.
  - rewrite append_cons. intros [= _ Hs]. apply (f_equal String.length) in Hs.
    rewrite length_app_string in Hs. pose proof (sanitizeText_length s).
    destruct body; [done|]. simpl in Hs. lia.
Qed.

Lemma sanitizeText_no_char (c : ascii) (s : string) :
  c = "<"%char ∨ c = ">"%char → JS.includes (String c EmptyString) (sanitizeText s) = false.
Proof.
  intros Hc. induction s as [|a s IH]; [by destruct Hc as [->| ->]|].
  simpl. rewrite includes_char_app, IH, orb_false_r.
  destruct (escape_char_cases a) as [[Hn ->]|[_ (body & -> & Hlt & Hgt & _)]].
  - rewrite includes_char_cons. simpl. rewrite orb_false_r. apply bool_decide_eq_false.
    intros <-. unfold needs_escape in Hn. by destruct Hc as [->| ->].
  - rewrite includes_char_cons. destruct Hc as [->| ->]; by rewrite ?Hlt, ?Hgt.
Qed.

Lemma sanitizeText_empty (s : string) : sanitizeText s = "" ↔ s = "".
Proof.
  split; [|by intros ->]. destruct s as [|a s]; [done|].
  simpl. by destruct (escape_char_cases a) as [[_ ->]|[_ (body & -> & _)]].
Qed.

(** Text that went through [sanitizeText] holds neither of the two angle
    brackets, whatever the input: it cannot open or close a tag where it is
    written into markup. *)
Theorem sanitized_text_has_no_angle_bracket (text : string) :
  JS.includes "<" (sanitizeText text) = false ∧ JS.includes ">" (sanitizeText text) = false.
Proof. split; apply sanitizeText_no_char; auto. Qed.

(** [sanitizeText] leaves a text as it is exactly when the text holds no
    ampersand, angle bracket or no-break space, and only on such a text does
    sanitizing twice give what sanitizing once gives: a name the scan has
    sanitized, sanitized again by the dashboard, comes out escaped twice as
    soon as it holds one of these. *)
Theorem sanitizeText_twice_differs_unless_plain (text : string) :
  (sanitizeText text = text ↔ has_escapable text = false)
  ∧ (sanitizeText (sanitizeText text) = sanitizeText text ↔ has_escapable text = false).
Proof.
  split; (split; [|intros Hp; by rewrite !(sanitizeText_plain text Hp)]).
  - apply sanitizeText_fixed.
  - intros Hs%sanitizeText_fixed. by rewrite has_escapable_sanitizeText in Hs.
Qed.

(** ** Download names *)

Lemma last_split_acc_no_sep (c : ascii) (cur s d : string) :
  JS.includes (String c EmptyString) cur = false →
  JS.includes (String c EmptyString) (List.last (JS.split_acc c cur s) d) = false.
Proof.
  revert cur. induction s as [|a s IH]; intros cur Hcur; [done|].
  simpl. destruct (Ascii.eqb_spec a c) as [->|Hne].
  - rewrite last_cons_not_nil by apply split_acc_not_nil. by apply IH.
  - apply IH. rewrite includes_char_app, Hcur, includes_char_cons. simpl.
    rewrite orb_false_r. apply bool_decide_eq_false. congruence.
Qed.

Lemma split_head_keeps_absent (c c' : ascii) (s : string) :
  JS.includes (String c EmptyString) s = false →
  JS.includes (String c EmptyString) (JS.split_head c' s) = false.
Proof.
  induction s as [|a s IH]; [done|].
  rewrite includes_char_cons. intros [Ha Hs]%orb_false_iff.
  cbn [JS.split_head]. destruct (Ascii.eqb a c'); [by destruct c|].
  by rewrite includes_char_cons, Ha, IH.
Qed.

Lemma fold_case_app (s t : string) :
  Str.fold_case (s +:+ t) = Str.fold_case s +:+ Str.fold_case t.
Proof. induction s as [|a s IH]; [done|]. rewrite append_cons. simpl. by rewrite IH. Qed.

Lemma ends_with_app (suffix s t : string) :
  Str.ends_with suffix t = true → Str.ends_with suffix (s +:+ t) = true.
Proof.
  intros Ht. induction s as [|a s IH]; [done|].
  rewrite append_cons. cbn [Str.ends_with]. rewrite IH. apply orb_true_r.
Qed.

Lemma has_image_extension_app (s t : string) :
  Dashboard.has_image_extension t = true → Dashboard.has_image_extension (s +:+ t) = true.
Proof.
  unfold Dashboard.has_image_extension. rewrite fold_case_app.
  intros [[[H|H]%orb_true_iff|H]%orb_true_iff|H]%orb_true_iff;
    rewrite (ends_with_app _ (Str.fold_case s) _ H); by rewrite ?orb_true_r.
Qed.

Lemma all_chars_no_char (p : ascii → bool) (c : ascii) (s : string) :
  p c = false → Str.all_chars p s = true → JS.includes (String c EmptyString) s = false.
Proof.
  intros Hc. induction s as [|a s IH]; [by destruct c|].
  simpl Str.all_chars. intros [Ha Hs]%andb_true_iff.
  rewrite includes_char_cons, (IH Hs), orb_false_r. apply bool_decide_eq_false.
  intros ->. congruence.
Qed.

Lemma replace_non_alnum_safe (s : string) :
  Str.all_chars (fun a => Str.is_alnum a || Ascii.eqb a "_") (Str.replace_non_alnum s) = true.
Proof.
  induction s as [|a s IH]; [done|].
  simpl. rewrite IH, andb_true_r. destruct (Str.is_alnum a) eqn:Ha; [by rewrite Ha|done].
Qed.

(** A download is named by a file directly inside at most one folder: the
    name ends in one of the four image extensions (ignoring case) and holds
    no question mark; without a prefix it holds no slash, and with one it is
    the prefix with everything but ASCII letters and digits replaced by an
    underscore, a slash, and a file part without a slash.  The address
    handed to the browser is the one given. *)
Theorem download_name_is_an_image_file_in_one_folder (url prefix : string) :
  let dl := Dashboard.downloadImage url prefix in
  let filename := Dashboard.download_filename dl in
  Dashboard.download_url dl = url
  ∧ Dashboard.has_image_extension filename = true
  ∧ JS.includes "?" filename = false
  ∧ (prefix = "" → JS.includes "/" filename = false)
  ∧ (prefix ≠ "" →
     ∃ file, filename = Str.replace_non_alnum prefix +:+ "/" +:+ file
             ∧ JS.includes "/" file = false
             ∧ JS.includes "/" (Str.replace_non_alnum prefix) = false
             ∧ String.length (Str.replace_non_alnum prefix) = String.length prefix).
Proof.
  intros dl filename. subst filename dl. unfold Dashboard.downloadImage.
  cbn [Dashboard.download_url Dashboard.download_filename].
  set (raw := JS.split_head "?" (JS.last_part (JS.split "/" url))).
  set (file := if Dashboard.has_image_extension raw then raw else raw +:+ ".png").
  assert (Hq : JS.includes "?" raw = false) by apply split_head_no_sep.
  assert (Hs : JS.includes "/" raw = false).
  { apply split_head_keeps_absent. unfold JS.last_part, JS.split.
    by apply last_split_acc_no_sep. }
  assert (Hext : Dashboard.has_image_extension file = true).
  { subst file. destruct (Dashboard.has_image_extension raw) eqn:He; [done|].
    by apply has_image_extension_app. }
  assert (Hfq : JS.includes "?" file = false).
  { subst file. destruct (Dashboard.has_image_extension raw); [done|].
    by rewrite includes_char_app, Hq. }
  assert (Hfs : JS.includes "/" file = false).
  { subst file. destruct (Dashboard.has_image_extension raw); [done|].
    by rewrite includes_char_app, Hs. }
  pose proof (replace_non_alnum_safe prefix) as Hsafe.
  split; [done|]. destruct (decide (prefix = "")) as [Hp|Hp].
  - repeat split; try done.
  - split; [by do 2 apply has_image_extension_app|].
    split.
    { rewrite !includes_char_app, Hfq.
      by rewrite (all_chars_no_char _ "?" _ eq_refl Hsafe). }
    split; [done|]. intros _. exists file. split; [done|]. split; [done|].
    split; [by apply (all_chars_no_char _ "/" _ eq_refl Hsafe)|].
    clear. induction prefix as [|a s IH]; [done|]. simpl. by rewrite IH.
Qed.

(** ** Showing what a scan saved *)

Lemma sanitizeUrl_valid `{Host} (u : string) :
  isValidImageUrl u = true → Dashboard.sanitizeUrl u = u.
Proof.
  intros Hv. unfold Dashboard.sanitizeUrl.
  by destruct (isValidImageUrl_protocol u Hv) as [-> | ->].
Qed.

(** The dashboard shows every screen of a collection that a successful scan
    has just saved under its own address: [sanitizeUrl] returns each of
    them unchanged, none is replaced by [about:blank]. *)
Theorem saved_screens_pass_sanitizeUrl `{Host}
    (p : Page) (store : Store) (out : Outcome) (n : nat) (nm : string) (upd : bool) :
  performSmartScrape p store = Some out →
  result out = Success n nm upd →
  ∃ a apps',
    store_after out = Some apps' ∧ a ∈ apps' ∧ length (screens a) = n
    ∧ ∀ u, u ∈ screens a → Dashboard.sanitizeUrl u = u.
Proof.
  intros Hscan Hres.
  destruct (performSmartScrape_saved p store out n nm upd Hscan Hres)
    as (st & a & apps' & _ & _ & Hn & Hstore & Hscr & _ & Hw).
  exists a, apps'. split; [done|]. split; [|split].
  - destruct Hw as [->|(k & Hk & ->)]; [left|].
    apply list_elem_of_lookup. exists k. by apply list_lookup_insert_eq.
  - by rewrite Hscr.
  - intros u Hu. rewrite Hscr in Hu.
    apply dedupe_elem_of, list_elem_of_filter in Hu as [Hv _].
    apply sanitizeUrl_valid. by destruct (isValidImageUrl u).
Qed.

Example saved_screens_witness :
  ∃ a, store_after ex_outcome = Some [a]
       ∧ ∀ u, u ∈ screens a → Dashboard.sanitizeUrl (H := Whatwg.host) u = u.
Proof.
  assert (Hscan : performSmartScrape (host := Whatwg.host)
                    (ex_page [ex_top; ex_middle; ex_bottom; ex_bottom]) None
                  = Some ex_outcome) by (vm_compute; reflexivity).
  destruct (saved_screens_pass_sanitizeUrl (H := Whatwg.host)
              (ex_page [ex_top; ex_middle; ex_bottom; ex_bottom])
              None ex_outcome 3%nat "Foo" false Hscan eq_refl)
    as (a & apps' & Hstore & Hin & _ & Hall).
  exists a. split; [|exact Hall].
  rewrite Hstore. vm_compute in Hstore. injection Hstore as <-.
  apply list_elem_of_singleton in Hin. by rewrite Hin.
Defined.

(** ** Relative dates *)

Lemma div_bounds (a b : Z) : 0 < b → b * (a / b) ≤ a < b * (a / b) + b.
Proof.
  intros Hb. split; [by apply Z.mul_div_le|].
  pose proof (Z.mul_succ_div_gt a b Hb). lia.
Qed.

(** For a time stamp that is a valid date, [formatDate] counts whole periods
    of 24 hours between the time stamp and now, not calendar days: less than
    24 hours ago is "Today", less than 48 is "Yesterday"; then come 2 to 6
    days, 1 to 4 weeks, 1 to 12 months and, from 365 days on, the locale's
    date.  A time stamp that lies in the future is shown as a negative
    number of days ago, and one beyond the range of [Date] as "Invalid
    Date". *)
Theorem formatDate_counts_periods_of_24_hours `{Locale} (now timestamp : Z) :
  timestamp ≠ 0 →
  0 ≤ now ≤ Dashboard.MAX_TIME →
  (Dashboard.MAX_TIME < Z.abs timestamp → Dashboard.formatDate now timestamp = "Invalid Date")
  ∧ (Z.abs timestamp ≤ Dashboard.MAX_TIME →
     let age := now - timestamp in
     let days := age / 86400000 in
     (0 ≤ age < 86400000 → Dashboard.formatDate now timestamp = "Today")
     ∧ (86400000 ≤ age < 2 * 86400000 → Dashboard.formatDate now timestamp = "Yesterday")
     ∧ (2 * 86400000 ≤ age < 7 * 86400000 →
        2 ≤ days ≤ 6 ∧ Dashboard.formatDate now timestamp = Str.of_Z days +:+ " days ago")
     ∧ (7 * 86400000 ≤ age < 30 * 86400000 →
        1 ≤ days / 7 ≤ 4
        ∧ Dashboard.formatDate now timestamp = Str.of_Z (days / 7) +:+ " weeks ago")
     ∧ (30 * 86400000 ≤ age < 365 * 86400000 →
        1 ≤ days / 30 ≤ 12
        ∧ Dashboard.formatDate now timestamp = Str.of_Z (days / 30) +:+ " months ago")
     ∧ (365 * 86400000 ≤ age →
        Dashboard.formatDate now timestamp = toLocaleDateString timestamp)
     ∧ (age < 0 →
        ∃ n : nat, Z.of_nat n = - days ∧ (0 < n)%nat
                   ∧ Dashboard.formatDate now timestamp
                     = "-" +:+ JS.of_nat n +:+ " days ago")).
Proof.
  intros Hts _. unfold Dashboard.formatDate.
  change (1000 * 60 * 60 * 24) with 86400000.
  destruct (Z.eqb_spec timestamp 0) as [|_]; [done|].
  destruct (Z.ltb_spec Dashboard.MAX_TIME (Z.abs timestamp)) as [Hbig|Hok];
    (split; [intros Hb; first [done | lia] | intros Hv; try lia]).
  set (age := now - timestamp). set (days := age / 86400000).
  pose proof (div_bounds age 86400000 eq_refl) as Hd. fold days in Hd.
  pose proof (div_bounds days 7 eq_refl) as Hw.
  pose proof (div_bounds days 30 eq_refl) as Hm.
  destruct (Z.eqb_spec days 0) as [H0|H0].
  { repeat split; intros; try lia. }
  destruct (Z.eqb_spec days 1) as [H1|H1].
  { repeat split; intros; try lia. }
  destruct (Z.ltb_spec days 7) as [H7|H7].
  { split; [intros; lia|]. split; [intros; lia|]. split; [intros; split; [lia|done]|].
    split; [intros; lia|]. split; [intros; lia|]. split; [intros; lia|].
    intros Hneg. assert (days < 0) as Hdn by lia.
    destruct days as [|q|q] eqn:Hq; [lia|lia|].
    exists (Pos.to_nat q). split; [lia|]. split; [lia|]. done. }
  destruct (Z.ltb_spec days 30) as [H30|H30].
  { split; [intros; lia|]. split; [intros; lia|]. split; [intros; lia|].
    split; [intros; split; [lia|done]|].
    split; [intros; lia|]. split; [intros; lia|]. intros; lia. }
  destruct (Z.ltb_spec days 365) as [H365|H365].
  { split; [intros; lia|]. split; [intros; lia|]. split; [intros; lia|].
    split; [intros; lia|]. split; [intros; split; [lia|done]|].
    split; [intros; lia|]. intros; lia. }
  split; [intros; lia|]. split; [intros; lia|]. split; [intros; lia|].
  split; [intros; lia|]. split; [intros; lia|]. split; [done|]. intros; lia.
Qed.

Example formatDate_witness :
  Dashboard.formatDate (locale := ex_locale) 1000 86400000 = "-1 days ago"
  ∧ Dashboard.formatDate (locale := ex_locale) 86400000 1 = "Today"
  ∧ Dashboard.formatDate (locale := ex_locale) (14 * 86400000) 86400000 = "1 weeks ago"
  ∧ Dashboard.formatDate (locale := ex_locale) 1700000000000 9000000000000000 = "Invalid Date".
Proof.
  assert (Hvalid : ∀ now timestamp,
            timestamp ≠ 0 → 0 ≤ now ≤ Dashboard.MAX_TIME →
            Z.abs timestamp ≤ Dashboard.MAX_TIME → _)
    by (intros now timestamp Hts Hnow;
        exact (proj2 (formatDate_counts_periods_of_24_hours (H := ex_locale) now timestamp
                        Hts Hnow))).
  split; [|split; [|split]].
  - destruct (Hvalid 1000 86400000) as (_ & _ & _ & _ & _ & _ & Hfuture);
      [discriminate | unfold Dashboard.MAX_TIME; lia | unfold Dashboard.MAX_TIME; simpl; lia |].
    destruct Hfuture as (n & Hn & _ & ->); [reflexivity|].
    change (- ((1000 - 86400000) / 86400000)) with (Z.of_nat 1) in Hn.
    by apply Nat2Z.inj in Hn as ->.
  - destruct (Hvalid 86400000 1) as (Htoday & _);
      [discriminate | unfold Dashboard.MAX_TIME; lia | unfold Dashboard.MAX_TIME; simpl; lia |].
    apply Htoday. simpl. lia.
  - destruct (Hvalid (14 * 86400000) 86400000) as (_ & _ & _ & Hweeks & _);
      [discriminate | unfold Dashboard.MAX_TIME; lia | unfold Dashboard.MAX_TIME; simpl; lia |].
    apply Hweeks. simpl. lia.
  - refine (proj1 (formatDate_counts_periods_of_24_hours (H := ex_locale)
                     1700000000000 9000000000000000 _ _) _).
    + discriminate.
    + unfold Dashboard.MAX_TIME. lia.
    + unfold Dashboard.MAX_TIME. simpl. lia.
Defined.

(** ** Page metadata *)

Section PageMetaFacts.
Context {host : Host} {resolver : Resolver}.

Lemma candidates_elem_of (d : PageMeta.Dom) (c : PageMeta.Candidate) :
  c ∈ PageMeta.candidates d ↔
  PageMeta.url c ≠ "" ∧ 0 < PageMeta.area c
  ∧ ∃ img, c = PageMeta.candidate d img
           ∧ img ∈ PageMeta.appLogoImages d
           ∧ PageMeta.in_nav img = false ∧ PageMeta.in_header img = false
           ∧ PageMeta.in_banner img = false.
Proof.
  unfold PageMeta.candidates.
  rewrite list_elem_of_filter, list_elem_of_fmap. split.
  - intros [[Hu Ha] (img & -> & [Hout Himg]%list_elem_of_filter)].
    split; [done|]. split; [done|]. exists img. split; [done|]. split; [done|].
    unfold PageMeta.outside_nav in Hout.
    destruct (PageMeta.in_nav img), (PageMeta.in_header img), (PageMeta.in_banner img); done.
  - intros (Hu & Ha & img & -> & Himg & Hn & Hh & Hb). split; [done|].
    exists img. split; [done|]. apply list_elem_of_filter. split; [|done].
    unfold PageMeta.outside_nav. by rewrite Hn, Hh, Hb.
Qed.

End PageMetaFacts.

(** When the first strategy has a candidate, the logo is the normalised
    address of one of the page's logo images: an image outside [nav],
    [header] and banner, whose address is not empty and whose area is
    positive, and no such image has a larger area; among the candidates of
    that area it is the first in document order. *)
Theorem main_logo_is_the_first_largest_candidate `{Resolver} (d : PageMeta.Dom) :
  PageMeta.candidates d ≠ [] →
  ∃ img later,
    img ∈ PageMeta.appLogoImages d
    ∧ PageMeta.in_nav img = false ∧ PageMeta.in_header img = false
    ∧ PageMeta.in_banner img = false
    ∧ PageMeta.extractMainLogo d
      = PageMeta.normalizeLogoUrl (PageMeta.location_href d)
          (JS.or_else (PageMeta.img_src img) (PageMeta.attr_src img))
    ∧ PageMeta.extractMainLogo d ≠ ""
    ∧ 0 < PageMeta.rect_width img * PageMeta.rect_height img
    ∧ (∀ other,
         other ∈ PageMeta.appLogoImages d →
         PageMeta.in_nav other = false → PageMeta.in_header other = false →
         PageMeta.in_banner other = false →
         PageMeta.normalizeLogoUrl (PageMeta.location_href d)
           (JS.or_else (PageMeta.img_src other) (PageMeta.attr_src other)) ≠ "" →
         0 < PageMeta.rect_width other * PageMeta.rect_height other →
         PageMeta.rect_width other * PageMeta.rect_height other
         ≤ PageMeta.rect_width img * PageMeta.rect_height img)
    ∧ filter (fun c => PageMeta.area c = PageMeta.rect_width img * PageMeta.rect_height img)
        (PageMeta.candidates d)
      = PageMeta.candidate d img :: later.
Proof.
  intros Hne. unfold PageMeta.extractMainLogo.
  destruct (sort (fun a b => PageMeta.area b - PageMeta.area a) (PageMeta.candidates d))
    as [|best rest] eqn:Hs; [by apply sort_nil_inv in Hs|].
  destruct (sort_head_max PageMeta.area _ _ _ Hs) as [Hin Hmax].
  pose proof (sort_stable PageMeta.area (PageMeta.area best) (PageMeta.candidates d)) as Hst.
  rewrite Hs, filter_cons, decide_True in Hst by done.
  apply candidates_elem_of in Hin as (Hu & Ha & img & -> & Himg & Hn & Hh & Hb).
  exists img, (filter (fun c => PageMeta.area c = PageMeta.area (PageMeta.candidate d img)) rest).
  split; [done|]. split; [done|]. split; [done|]. split; [done|]. split; [done|].
  split; [done|]. split; [done|]. split; [|by rewrite Hst].
  intros other Ho Hon Hoh Hob Hou Hoa.
  apply (Hmax (PageMeta.candidate d other)).
  apply candidates_elem_of. split; [done|]. split; [done|]. by exists other.
Qed.

Example main_logo_witness :
  PageMeta.extractMainLogo (resolver := ex_resolver) ex_dom
  = "https://cdn.mobbin.com/main.png".
Proof.
  destruct (main_logo_is_the_first_largest_candidate (H := ex_resolver)
              ex_dom ltac:(vm_compute; discriminate))
    as (img & later & Himg & Hnav & _ & _ & -> & _ & _ & Hmax & _).
  assert (Hbig : 10000 ≤ PageMeta.rect_width img * PageMeta.rect_height img).
  { apply (Hmax (ex_logo "https://cdn.mobbin.com/main.png?w=100#x" false 100 100));
      [right; right; left | done | done | done | vm_compute; discriminate | done]. }
  apply elem_of_cons in Himg as [->|Himg]; [discriminate Hnav|].
  apply elem_of_cons in Himg as [->|Himg]; [simpl in Hbig; lia|].
  apply list_elem_of_singleton in Himg as ->. reflexivity.
Defined.

(** [getPageMeta] throws exactly when the page shows no usable logo and
    [encodeURIComponent] throws on the first code unit of the name.  When it
    returns, the logo is never empty: it is the logo found on the page when
    that is not empty and a valid [http] or [https] address, and else the
    placeholder for the first code unit of the name.  The name holds no
    angle bracket, and the address is the page's own. *)
Theorem page_logo_is_valid_or_the_placeholder `{Host} `{Resolver} `{Encoder}
    (d : PageMeta.Dom) :
  let found := PageMeta.extractMainLogo d in
  let usable := negb (bool_decide (found = "")) && isValidImageUrl found in
  match PageMeta.getPageMeta d with
  | inr m =>
      meta_logo m ≠ ""
      ∧ (if usable then meta_logo m = found
         else ∃ text, encodeURIComponent (Str.charAt0 (meta_name m)) = inr text
                      ∧ meta_logo m = "https://via.placeholder.com/100?text=" +:+ text)
      ∧ meta_name m = PageMeta.appName d
      ∧ JS.includes "<" (meta_name m) = false ∧ JS.includes ">" (meta_name m) = false
      ∧ meta_url m = PageMeta.location_href d
  | inl message =>
      usable = false
      ∧ encodeURIComponent (Str.charAt0 (PageMeta.appName d)) = inl message
  end.
Proof.
  intros found usable. subst usable found.
  unfold PageMeta.getPageMeta, PageMeta.placeholder.
  assert (Hlt : JS.includes "<" (PageMeta.appName d) = false)
    by (apply sanitizeText_no_char; auto).
  assert (Hgt : JS.includes ">" (PageMeta.appName d) = false)
    by (apply sanitizeText_no_char; auto).
  destruct (bool_decide (PageMeta.extractMainLogo d = "")) eqn:Hempty;
    cbn [orb negb andb].
  - destruct (encodeURIComponent _) as [message|text] eqn:Henc; [done|].
    cbn [meta_logo meta_name meta_url]. split; [done|]. split; [by exists text|]. done.
  - destruct (isValidImageUrl (PageMeta.extractMainLogo d)) eqn:Hvalid; cbn [negb].
    + cbn [meta_logo meta_name meta_url]. apply bool_decide_eq_false in Hempty. done.
    + destruct (encodeURIComponent _) as [message|text] eqn:Henc; [done|].
      cbn [meta_logo meta_name meta_url]. split; [done|]. split; [by exists text|]. done.
Qed.

(** A page whose heading (the text of the [h1] when there is one, else the
    title) holds nothing but white space before its first em dash has no
    name, and a scan of it ends at once with the error "Could not detect app
    name": nothing is scrolled and the store is left as it was.  The title
    is not consulted when an [h1] exists. *)
Theorem blank_heading_stops_the_scan `{Host} `{Resolver} `{Encoder}
    (d : PageMeta.Dom) (p : Page) (store : Store) :
  getPageMeta p = PageMeta.getPageMeta d →
  Str.all_chars JS.is_space (fst (default (PageMeta.title d) (PageMeta.h1_innerText d))) = true →
  (∃ m, PageMeta.getPageMeta d = inr m ∧ meta_name m = "")
  ∧ performSmartScrape p store
    = Some {| result := Error "Could not detect app name"; store_after := store; trace := [] |}.
Proof.
  intros Hp Hblank.
  assert (Hname : PageMeta.appName d = "").
  { unfold PageMeta.appName.
    destruct (PageMeta.h1_innerText d); simpl in Hblank; by rewrite (trim_blank _ Hblank). }
  assert (Hmeta : ∃ m, PageMeta.getPageMeta d = inr m ∧ meta_name m = "").
  { unfold PageMeta.getPageMeta, PageMeta.placeholder. rewrite Hname.
    cbn [Str.charAt0]. rewrite encodeURIComponent_empty.
    destruct (bool_decide _ || negb _); by eexists. }
  split; [done|]. destruct Hmeta as (m & Hm & Hempty).
  unfold performSmartScrape. rewrite Hp, Hm.
  by rewrite decide_True.
Qed.

Example blank_heading_witness :
  performSmartScrape (host := Whatwg.host) ex_blank_page (Some [ex_bar])
  = Some {| result := Error "Could not detect app name"; store_after := Some [ex_bar];
            trace := [] |}.
Proof.
  apply (blank_heading_stops_the_scan (H := Whatwg.host) (H0 := ex_resolver)
           (H1 := PageMeta.latin1) ex_blank_dom ex_blank_page (Some [ex_bar])); reflexivity.
Defined.

(** ** Injecting the content script *)

Lemma injections_app (l l' : list Popup.Act) :
  Popup.injections (l ++ l') = (Popup.injections l + Popup.injections l')%nat.
Proof. induction l as [|[|ms] l IH]; simpl; [done| |]; unfold Popup.injections in *; lia. Qed.

Lemma waited_app (l l' : list Popup.Act) :
  Popup.waited (l ++ l') = Popup.waited l + Popup.waited l'.
Proof. induction l as [|[|ms] l IH]; simpl; [done| |]; unfold Popup.waited in *; lia. Qed.

Lemma injections_nil : Popup.injections [] = 0%nat.
Proof. reflexivity. Qed.

Lemma waited_nil : Popup.waited [] = 0.
Proof. reflexivity. Qed.

Lemma injections_execute (l : list Popup.Act) :
  Popup.injections (Popup.ExecuteScript :: l) = S (Popup.injections l).
Proof. reflexivity. Qed.

Lemma waited_execute (l : list Popup.Act) :
  Popup.waited (Popup.ExecuteScript :: l) = Popup.waited l.
Proof. reflexivity. Qed.

Lemma injections_wait (ms : Z) (l : list Popup.Act) :
  Popup.injections (Popup.Wait ms :: l) = Popup.injections l.
Proof. reflexivity. Qed.

Lemma waited_wait (ms : Z) (l : list Popup.Act) :
  Popup.waited (Popup.Wait ms :: l) = ms + Popup.waited l.
Proof. reflexivity. Qed.

Lemma caught_bounds (attempt : nat) (message : string) (r : option bool) (acts : list Popup.Act) :
  Popup.caught attempt message = (r, acts) →
  r ≠ Some true ∧ Popup.injections acts = 0%nat
  ∧ 0 ≤ Popup.waited acts
  ∧ Popup.waited acts ≤ (if (attempt <? 2)%nat then 500 * (Z.of_nat attempt + 1) else 0).
Proof.
  unfold Popup.caught.
  change (Popup.CONFIG.MAX_INJECTION_RETRIES - 1)%nat with 2%nat.
  change Popup.CONFIG.INJECTION_RETRY_DELAY with 500.
  destruct (bool_decide _ && JS.includes _ _).
  { intros [= <- <-]. rewrite waited_nil. repeat split; try done.
    destruct (attempt <? 2)%nat; lia. }
  destruct (attempt <? 2)%nat; intros [= <- <-]; rewrite ?waited_wait, waited_nil;
    repeat split; try done; lia.
Qed.

Lemma attempt_once_bounds (attempt : nat) (o : Popup.Attempt)
    (r : option bool) (acts : list Popup.Act) :
  Popup.attempt_once attempt o = (r, acts) →
  (r = Some true → Popup.answered o)
  ∧ (Popup.injections acts ≤ 1)%nat
  ∧ 0 ≤ Popup.waited acts
  ∧ Popup.waited acts ≤ 500 + (if (attempt <? 2)%nat then 500 * (Z.of_nat attempt + 1) else 0).
Proof.
  unfold Popup.attempt_once, Popup.answered.
  change Popup.CONFIG.INJECTION_RETRY_DELAY with 500.
  pose proof (caught_bounds attempt) as HC.
  set (bound := if (attempt <? 2)%nat then 500 * (Z.of_nat attempt + 1) else 0) in *.
  assert (0 ≤ bound) as Hbound by (subst bound; destruct (attempt <? 2)%nat; lia).
  clearbody bound.
  destruct (Popup.ping_before o) as [e|[|]] eqn:Hb.
  - intros (Hr & Hi & Hw0 & Hw)%HC. repeat split; try done; lia.
  - intros [= <- <-]. rewrite injections_nil, waited_nil. split; [auto|]. repeat split; lia.
  - destruct (Popup.inject_error o) as [e|] eqn:He.
    + destruct (Popup.caught attempt e) as [r' acts'] eqn:Hc.
      apply HC in Hc as (Hr & Hi & Hw0 & Hw).
      intros [= <- <-]. split; [done|]. rewrite injections_execute, waited_execute.
      repeat split; lia.
    + destruct (Popup.ping_after o) as [e|verified] eqn:Ha.
      * destruct (Popup.caught attempt e) as [r' acts'] eqn:Hc.
        apply HC in Hc as (Hr & Hi & Hw0 & Hw).
        intros [= <- <-]. split; [done|].
        rewrite ?injections_app, ?waited_app, injections_execute, waited_execute,
          injections_wait, waited_wait, ?injections_nil, ?waited_nil.
        repeat split; lia.
      * intros [= <- <-]. split.
        { destruct verified; [auto|done]. }
        rewrite injections_execute, waited_execute, injections_wait, waited_wait,
          injections_nil, waited_nil.
        repeat split; lia.
Qed.

(** However the tab behaves, the popup runs [executeScript] at most three
    times and sleeps at most three seconds in all before it gives its
    answer, and it answers [true] only if, in one of its three passes, the
    content script answered a ping: either the first one of the pass, or
    the one after an injection that did not throw. *)
Theorem injection_is_bounded_and_true_only_after_a_ping (env : nat → Popup.Attempt) :
  let r := Popup.injectContentScriptWithRetry env in
  (Popup.injections (snd r) ≤ 3)%nat
  ∧ 0 ≤ Popup.waited (snd r) ≤ 3000
  ∧ (fst r = true → ∃ k, (k < 3)%nat ∧ Popup.answered (env k)).
Proof.
  intros r. subst r. unfold Popup.injectContentScriptWithRetry.
  change Popup.CONFIG.MAX_INJECTION_RETRIES with 3%nat. cbn [Popup.inject_loop].
  destruct (Popup.attempt_once 0 (env 0%nat)) as [r0 a0] eqn:H0.
  destruct (Popup.attempt_once 1 (env 1%nat)) as [r1 a1] eqn:H1.
  destruct (Popup.attempt_once 2 (env 2%nat)) as [r2 a2] eqn:H2.
  apply attempt_once_bounds in H0 as (Ht0 & Hi0 & Hl0 & Hu0).
  apply attempt_once_bounds in H1 as (Ht1 & Hi1 & Hl1 & Hu1).
  apply attempt_once_bounds in H2 as (Ht2 & Hi2 & Hl2 & Hu2).
  simpl in Hu0, Hu1, Hu2.
  destruct r0 as [b0|]; cbn [fst snd].
  { split; [lia|]. split; [lia|]. intros ->. exists 0%nat. split; [lia|auto]. }
  destruct r1 as [b1|]; cbn [fst snd]; rewrite ?injections_app, ?waited_app.
  { split; [lia|]. split; [lia|]. intros ->. exists 1%nat. split; [lia|auto]. }
  destruct r2 as [b2|]; cbn [fst snd]; rewrite ?injections_app, ?waited_app.
  { split; [lia|]. split; [lia|]. intros ->. exists 2%nat. split; [lia|auto]. }
  rewrite ?app_nil_r, ?injections_nil, ?waited_nil. split; [lia|]. split; [lia|]. done.
Qed.

(** When [executeScript] throws an error whose message contains "Cannot
    access" in the first pass, the popup gives up at once: it answers
    [false] after that one call, without waiting and without a second try. *)
Theorem restricted_page_is_not_retried (env : nat → Popup.Attempt) (message : string) :
  Popup.ping_before (env 0%nat) = inr false →
  Popup.inject_error (env 0%nat) = Some message →
  JS.includes "Cannot access" message = true →
  Popup.injectContentScriptWithRetry env = (false, [Popup.ExecuteScript]).
Proof.
  intros Hb He Hm. unfold Popup.injectContentScriptWithRetry.
  change Popup.CONFIG.MAX_INJECTION_RETRIES with 3%nat. cbn [Popup.inject_loop].
  unfold Popup.attempt_once. rewrite Hb, He. unfold Popup.caught. rewrite Hm.
  rewrite bool_decide_true; [done|]. by intros ->.
Qed.

Example restricted_page_witness :
  Popup.injectContentScriptWithRetry (fun _ => ex_restricted) = (false, [Popup.ExecuteScript]).
Proof.
  apply (restricted_page_is_not_retried (fun _ => ex_restricted) "Cannot access a chrome:// URL");
    reflexivity.
Defined.

(** A tab that lets the script in but never answers a ping gets the content
    script injected three times, each injection followed by a wait of half
    a second, before the popup answers [false]. *)
Theorem silent_tab_is_injected_three_times (env : nat → Popup.Attempt) :
  (∀ k, (k < 3)%nat →
        Popup.ping_before (env k) = inr false ∧ Popup.inject_error (env k) = None
        ∧ Popup.ping_after (env k) = inr false) →
  Popup.injectContentScriptWithRetry env
  = (false, [Popup.ExecuteScript; Popup.Wait 500; Popup.ExecuteScript; Popup.Wait 500;
             Popup.ExecuteScript; Popup.Wait 500]).
Proof.
  intros Henv. unfold Popup.injectContentScriptWithRetry.
  change Popup.CONFIG.MAX_INJECTION_RETRIES with 3%nat. cbn [Popup.inject_loop].
  unfold Popup.attempt_once.
  destruct (Henv 0%nat ltac:(lia)) as (-> & -> & ->).
  destruct (Henv 1%nat ltac:(lia)) as (-> & -> & ->).
  destruct (Henv 2%nat ltac:(lia)) as (-> & -> & ->).
  reflexivity.
Qed.

Example silent_tab_witness :
  fst (Popup.injectContentScriptWithRetry (fun _ => ex_silent)) = false
  ∧ Popup.injections (snd (Popup.injectContentScriptWithRetry (fun _ => ex_silent))) = 3%nat.
Proof.
  rewrite (silent_tab_is_injected_three_times (fun _ => ex_silent)); [done|].
  intros k _. done.
Defined.

(** ** From a scan to the library *)

Lemma sort_insert_front {A} (key : A → Z) (x : A) (l : list A) :
  (∀ y, y ∈ l → key y ≤ key x) →
  sort_insert (fun a b => key b - key a) x l = x :: l.
Proof.
  intros Hl. destruct l as [|y l]; [done|]. simpl.
  destruct (Z.ltb_spec 0 (key y - key x)) as [Hlt|_]; [|done].
  specialize (Hl y ltac:(left)). lia.
Qed.

(** A collection that a scan has saved as a new one stands first in the
    library when the dashboard is loaded afterwards with no search text and
    the order "recent" (or any value but "name" and "screens"), provided no
    stored collection carries a later [dateAdded]; behind it come the
    collections stored before, the most recently added first. *)
Theorem new_collection_is_listed_first_under_recent `{Host} `{Locale}
    (p : Page) (store : Store) (out : Outcome) (n : nat) (nm : string) (d : Dashboard.Dash) :
  performSmartScrape p store = Some out →
  result out = Success n nm false →
  (∀ a, a ∈ default [] store → dateAdded a ≤ now p) →
  Dashboard.currentSearch d = "" →
  Dashboard.currentSort d ≠ "name" → Dashboard.currentSort d ≠ "screens" →
  ∃ a,
    Dashboard.filteredApps (Dashboard.loadData None (store_after out) d)
    = a :: sort (fun x y => dateAdded y - dateAdded x) (default [] store)
    ∧ name a = nm ∧ screenCount a = n ∧ dateAdded a = now p.
Proof.
  intros Hscan Hres Hold Hsearch Hn Hs.
  destruct (performSmartScrape_success p store out n nm false Hscan Hres)
    as (m & st & _ & _ & _ & Hsave).
  apply saveToStorage_success_no_faults in Hsave.
  destruct (saveToStorage_written (href p) (now p) (capturedImages st) m store)
    as (da & upd & apps' & Hsave' & Hw).
  rewrite Hsave in Hsave'. injection Hsave' as Hlen Hname Hupd Hstore.
  destruct Hw as [(_ & -> & ->)|(Hu & _)]; [|congruence].
  exists (set_dateAdded (now p)
            (newAppData (appId_of (href p) m) (now p) (capturedImages st) m)).
  split; [|by simpl].
  rewrite Hstore. unfold Dashboard.loadData, Dashboard.applySortAndFilter.
  cbn [Dashboard.filteredApps Dashboard.set_filteredApps Dashboard.set_appsData
       Dashboard.appsData Dashboard.currentSearch Dashboard.currentSort default].
  rewrite Hsearch, decide_True by done.
  rewrite (sort_ext _ (fun x y => dateAdded y - dateAdded x))
    by (intros x y; unfold Dashboard.compareFn; by rewrite !decide_False).
  cbn [sort]. apply (sort_insert_front dateAdded).
  intros y Hy%sort_elem_of. by apply Hold.
Qed.

Example new_collection_witness :
  ∃ a, Dashboard.filteredApps
         (Dashboard.loadData (locale := ex_locale) None (store_after ex_outcome) ex_dash)
       = [a]
       ∧ name a = "Foo" ∧ screenCount a = 3%nat ∧ dateAdded a = 2000.
Proof.
  assert (Hscan : performSmartScrape (host := Whatwg.host)
                    (ex_page [ex_top; ex_middle; ex_bottom; ex_bottom]) None
                  = Some ex_outcome) by (vm_compute; reflexivity).
  destruct (new_collection_is_listed_first_under_recent (H := Whatwg.host) (H0 := ex_locale)
              (ex_page [ex_top; ex_middle; ex_bottom; ex_bottom]) None ex_outcome 3%nat "Foo"
              ex_dash Hscan eq_refl)
    as (a & Hfirst & Hrest); [by intros a Ha; inversion Ha | done | done | done |].
  exists a. split; [exact Hfirst | exact Hrest].
Defined.

(** ** What a delete leaves on the screen *)

(** A confirmed delete does not render the library again: the grid keeps
    the cards it had, the card of the deleted app among them, although the
    app is gone from [appsData], whether or not the write went through; the
    card goes with the next change of the sort order. *)
Theorem delete_leaves_the_card_in_the_grid `{Locale}
    (e : option string) (d : Dashboard.Dash) (store : Store) (app : App) :
  Dashboard.currentApp d = Some app →
  let d' := fst (Dashboard.handleDeleteApp true e d store) in
  Dashboard.grid d' = Dashboard.grid d
  ∧ (app ∉ Dashboard.appsData d')
  ∧ ∀ value, app ∉ Dashboard.grid (Dashboard.handleSort value d').
Proof.
  intros Hc d'.
  assert (Happs : app ∉ Dashboard.appsData d').
  { subst d'. rewrite (handleDeleteApp_confirmed e d store app Hc).
    destruct e; simpl; rewrite list_elem_of_filter; naive_solver. }
  split; [|split; [done|]].
  - subst d'. rewrite (handleDeleteApp_confirmed e d store app Hc). by destruct e.
  - intros value. unfold Dashboard.handleSort, Dashboard.renderLibrary.
    cbn [Dashboard.grid]. destruct (decide _); [apply not_elem_of_nil|].
    rewrite applySortAndFilter_elem_of. naive_solver.
Qed.

Example delete_card_witness :
  Dashboard.grid
    (fst (Dashboard.handleDeleteApp (locale := ex_locale) true None ex_dash
            (Some [ex_bar; ex_foo_old])))
  = [ex_bar; ex_foo_old].
Proof.
  apply (delete_leaves_the_card_in_the_grid (H := ex_locale) None ex_dash
           (Some [ex_bar; ex_foo_old]) ex_foo_old eq_refl).
Defined.

(** ** What [sanitizeText] leaves alone *)

Lemma escape_char_dquote (a : ascii) :
  JS.includes Str.dquote (escape_char a) = bool_decide ("034"%char = a).
Proof.
  unfold escape_char.
  destruct (Ascii.eqb_spec a "&") as [->|_]; [done|].
  destruct (Ascii.eqb_spec a "<") as [->|_]; [done|].
  destruct (Ascii.eqb_spec a ">") as [->|_]; [done|].
  destruct (Ascii.eqb_spec a "160") as [->|_]; [done|].
  unfold Str.dquote. rewrite includes_char_cons. simpl. by rewrite orb_false_r.
Qed.

(** [sanitizeText] does not escape the double quote: its result holds one
    exactly when the text does, so text written between the quotes of an
    attribute value can still end it. *)
Theorem sanitizeText_keeps_double_quotes (text : string) :
  JS.includes Str.dquote (sanitizeText text) = JS.includes Str.dquote text.
Proof.
  unfold Str.dquote. induction text as [|a s IH]; [done|].
  cbn [sanitizeText]. rewrite includes_char_app, IH, includes_char_cons.
  by rewrite <- escape_char_dquote.
Qed.
